(** * heyatlas/cache: the connection manager and the namespaced store

    A shallow embedding of [src/cache.ts] (class [Cache], function
    [cacheInstance]) and [src/createCacheStore.ts] ([createCacheStore]),
    followed by the properties of the specification that concern them.

    The remote store client (ioredis), the JSON codec of the JavaScript
    runtime and lodash's [snakeCase] are collaborators of the code, not part
    of it: they appear as interfaces ([RedisClient], [JsRuntime]) and every
    theorem holds for all their implementations. *)

From Stdlib Require Import ZArith Ascii String.
From stdpp Require Import base strings list pretty.

Local Open Scope string_scope.
Local Open Scope list_scope.
Local Open Scope Z_scope.

(** ** JavaScript data *)

(** Numbers.  The code never computes on a number: it only tests one for
    truthiness ([ttl ? ... : ...]) and hands it on, so integers and the
    not-a-number value are all it can tell apart here. *)
Inductive JsNum :=
  | Num (z : Z)
  | NaN.

(** [ToBoolean] on a number: [0] and [NaN] are falsy, all else is truthy. *)
Definition truthy_num (n : JsNum) : bool :=
  match n with
  | Num z => negb (z =? 0)
  | NaN => false
  end.

(** [ttl ? a : b] for [ttl?: number]: [undefined] is falsy too. *)
Definition truthy_ttl (ttl : option JsNum) : bool :=
  match ttl with
  | Some n => truthy_num n
  | None => false
  end.

(** What [JSON.parse] can produce. *)
#[warnings="-register-all"]
Inductive Json :=
  | JNull
  | JBool (b : bool)
  | JNumber (n : JsNum)
  | JString (s : string)
  | JArray (items : list Json)
  | JObject (fields : list (string * Json)).

(** A value of type [unknown]: [undefined], a JSON datum, or anything else
    (a function, a symbol, a cyclic object, ...). *)
Inductive JsValue :=
  | Undefined
  | Data (j : Json)
  | Exotic (tag : string).

(** lodash [isNil]: [value == null]. *)
Definition isNil (v : JsValue) : bool :=
  match v with
  | Undefined => true
  | Data JNull => true
  | _ => false
  end.

(** lodash [isEmpty] at the type [string | undefined]. *)
Definition isEmpty (s : option string) : bool :=
  match s with
  | None => true
  | Some t => bool_decide (t = EmptyString)
  end.

(** [existingItem === undefined]. *)
Definition is_undefined (v : JsValue) : bool :=
  match v with
  | Undefined => true
  | _ => false
  end.

(** ** Errors *)

(** An exception object raised by a collaborator: the client, the runtime. *)
Record Exn := mkExn { exn_name : string; exn_message : string }.

(** The errors a caller can observe.  The first six are the [new Error(...)]
    of the code, one constructor per throw site; [Foreign] is an exception
    that the code did not build and only lets through. *)
Inductive JsError :=
  | NotInitialized
  | NotConnected
  | ConnectionTimeout
  | InvalidValue
  | PartialBulkFailure (failed total : nat)
  | SaveFailed (cause : string)
  | Foreign (x : Exn).

(** [error.message]. *)
Definition message (e : JsError) : string :=
  match e with
  | NotInitialized =>
      "Cache is not initialized. Please provide configuration for the first call."
  | NotConnected => "Redis cache is not connected"
  | ConnectionTimeout => "Connection timeout"
  | InvalidValue => "Value is null or undefined"
  | PartialBulkFailure failed total =>
      "Failed to set " +:+ pretty failed +:+ " out of " +:+ pretty total +:+ " items"
  | SaveFailed cause => "Failed to save item: " +:+ cause
  | Foreign x => exn_message x
  end.

(** Reading a property of [undefined]. *)
Definition type_error : JsError :=
  Foreign (mkExn "TypeError" "Cannot read properties of undefined").

(** The result of a call that may throw (or of a promise that may reject). *)
Inductive Result (A : Type) :=
  | Ok (a : A)
  | Throw (e : JsError).
Arguments Ok {A} a.
Arguments Throw {A} e.

(** The result of a call into a collaborator. *)
Inductive Outcome (A : Type) :=
  | Done (a : A)
  | Failed (x : Exn).
Arguments Done {A} a.
Arguments Failed {A} x.

Definition lift_outcome {A} (o : Outcome A) : Result A :=
  match o with
  | Done a => Ok a
  | Failed x => Throw (Foreign x)
  end.

(** ** Configuration *)

Inductive PortSpec :=
  | PortText (s : string)
  | PortNumber (n : JsNum).

(** [interface CacheConfig].  The [logger] field is left out: every record
    the code logs goes to the one log of the world below. *)
Record CacheConfig := {
  host : string;
  port : option PortSpec;
  username : option string;
  password : option string;
  tlsEnabled : option bool;
  connectTimeout : option JsNum;
}.

(** The [RedisOptions] that [getRedisConfig] builds.  [retryStrategy] is a
    function and is given apart, as [retryStrategy] below. *)
Record RedisOptions := {
  o_username : option string;
  o_password : option string;
  o_port : JsNum;
  o_host : string;
  o_maxRetriesPerRequest : option Z;
  o_connectTimeout : JsNum;
  o_disconnectTimeout : Z;
  o_enableOfflineQueue : bool;
  o_tls : bool;
}.

(** ** The remote store client *)

(** Clients, objects and promises are named by their index. *)
Abbreviation Handle := nat (only parsing).

(** The text argument of a write: what [JSON.stringify] returned, which is
    [undefined] for a value that has no JSON form. *)
Definition Payload := option string.

(** A command handed to the client, alone or queued on a pipeline. *)
Inductive Command :=
  | CmdGet (key : string)
  | CmdSet (key : string) (v : Payload)
  | CmdSetex (key : string) (ttl : JsNum) (v : Payload)
  | CmdDel (key : string)
  | CmdKeys (pattern : string)
  | CmdOther (name : string) (args : list string).

Inductive Reply :=
  | RNull
  | RText (s : string)
  | RInt (z : Z)
  | RList (l : list string).

(** One [[Error | null, T]] pair of a pipeline result. *)
Definition PipelineEntry : Type := option Exn * Reply.

(** The capabilities of ioredis that the code consumes, over a state [S] of
    whatever lies behind the client (the store, the link).  A single command
    resolves or rejects.  A pipeline is applied command by command, each
    giving its own pair, unless the round trip fails as a whole. *)
Class RedisClient (S : Type) := {
  redis_new : RedisOptions → option Exn;
  redis_get : Handle → string → S → Outcome (option string) * S;
  redis_set : Handle → string → Payload → S → Outcome unit * S;
  redis_setex : Handle → string → JsNum → Payload → S → Outcome unit * S;
  redis_del : Handle → string → S → Outcome unit * S;
  redis_keys : Handle → string → S → Outcome (list string) * S;
  redis_quit : Handle → S → Outcome unit * S;
  pipeline_apply : Handle → Command → S → PipelineEntry * S;
  pipeline_fault : Handle → list Command → S → option (Exn * S);
}.

(** Built-ins of the language and lodash: the code calls them, and how they
    work is not part of it. *)
Class JsRuntime := {
  JSON_parse : string → option Json;
  JSON_stringify : JsValue → Outcome Payload;
  (** [Number.parseInt(s, 10)]. *)
  Number_parseInt : string → JsNum;
  (** [String(n)] for a number [n]. *)
  String_of_number : JsNum → string;
  snakeCase : string → string;
}.

(** What the code does to the outside through the client, in order. *)
Inductive Wire :=
  | WNew (o : RedisOptions)
  | WSend (h : Handle) (c : Command)
  | WExec (h : Handle) (cs : list Command)
  | WDisconnect (h : Handle)
  | WQuit (h : Handle).

(** ** Logging *)

Inductive Level := LDebug | LInfo | LWarn | LError.

(** A call [logger.level(event, payload)]; the payload is not kept. *)
Definition LogEntry : Type := Level * string.

(** ** The world: the heap of [Cache] objects and what surrounds them *)

Abbreviation Ref := nat (only parsing).
Abbreviation PromiseId := nat (only parsing).

(** The private fields of a [Cache] object. *)
Record Cache := {
  config : CacheConfig;
  redis : option Handle;
  isReady : bool;
  connectPromise : option PromiseId;
}.

(** The [setTimeout] of a connection attempt. *)
Inductive Timer := Armed | Cleared | Fired.

(** A client made by [new Redis(...)] in [connect], with what the closures
    registered on it captured: [this], the [resolve]/[reject] pair of the
    attempt's promise and the timeout; and the number of times
    [setupListeners] ran on it. *)
Record Client := {
  cl_options : RedisOptions;
  cl_owner : Ref;
  cl_attempt : PromiseId;
  cl_timer : Timer;
  cl_steady : nat;
}.

Inductive Settlement :=
  | Pending
  | Fulfilled
  | Rejected (e : JsError).

(** A call of [connect()], seen from its caller: settled, or still running
    in one of the two places where the function can wait. *)
Inductive Call :=
  | Settled (r : Result unit)
  | Following (p : PromiseId)
  | Awaiting (this : Ref) (p : PromiseId).

Record World (S : Type) := {
  heap : list Cache;
  instance : option Ref;
  NODE_ENV : option string;
  clients : list Client;
  promises : list Settlement;
  calls : list Call;
  remote : S;
  wire : list Wire;
  log : list LogEntry;
  uncaught : list JsError;
}.
Arguments heap {S} w.
Arguments instance {S} w.
Arguments NODE_ENV {S} w.
Arguments clients {S} w.
Arguments promises {S} w.
Arguments calls {S} w.
Arguments remote {S} w.
Arguments wire {S} w.
Arguments log {S} w.
Arguments uncaught {S} w.

Section Updates.
Context {S : Type}.

Definition with_heap (f : list Cache → list Cache) (w : World S) : World S :=
  {| heap := f (heap w); instance := instance w; NODE_ENV := NODE_ENV w;
     clients := clients w; promises := promises w; calls := calls w;
     remote := remote w; wire := wire w; log := log w; uncaught := uncaught w |}.

Definition with_instance (i : option Ref) (w : World S) : World S :=
  {| heap := heap w; instance := i; NODE_ENV := NODE_ENV w;
     clients := clients w; promises := promises w; calls := calls w;
     remote := remote w; wire := wire w; log := log w; uncaught := uncaught w |}.

Definition with_clients (f : list Client → list Client) (w : World S) : World S :=
  {| heap := heap w; instance := instance w; NODE_ENV := NODE_ENV w;
     clients := f (clients w); promises := promises w; calls := calls w;
     remote := remote w; wire := wire w; log := log w; uncaught := uncaught w |}.

Definition with_promises (f : list Settlement → list Settlement) (w : World S) : World S :=
  {| heap := heap w; instance := instance w; NODE_ENV := NODE_ENV w;
     clients := clients w; promises := f (promises w); calls := calls w;
     remote := remote w; wire := wire w; log := log w; uncaught := uncaught w |}.

Definition with_calls (f : list Call → list Call) (w : World S) : World S :=
  {| heap := heap w; instance := instance w; NODE_ENV := NODE_ENV w;
     clients := clients w; promises := promises w; calls := f (calls w);
     remote := remote w; wire := wire w; log := log w; uncaught := uncaught w |}.

Definition with_remote (s : S) (w : World S) : World S :=
  {| heap := heap w; instance := instance w; NODE_ENV := NODE_ENV w;
     clients := clients w; promises := promises w; calls := calls w;
     remote := s; wire := wire w; log := log w; uncaught := uncaught w |}.

Definition emit (x : Wire) (w : World S) : World S :=
  {| heap := heap w; instance := instance w; NODE_ENV := NODE_ENV w;
     clients := clients w; promises := promises w; calls := calls w;
     remote := remote w; wire := wire w ++ [x]; log := log w; uncaught := uncaught w |}.

Definition logged (l : Level) (event : string) (w : World S) : World S :=
  {| heap := heap w; instance := instance w; NODE_ENV := NODE_ENV w;
     clients := clients w; promises := promises w; calls := calls w;
     remote := remote w; wire := wire w; log := log w ++ [(l, event)];
     uncaught := uncaught w |}.

Definition escaped (e : JsError) (w : World S) : World S :=
  {| heap := heap w; instance := instance w; NODE_ENV := NODE_ENV w;
     clients := clients w; promises := promises w; calls := calls w;
     remote := remote w; wire := wire w; log := log w;
     uncaught := uncaught w ++ [e] |}.

(** Field updates of one object. *)
Definition set_redis (r : option Handle) (c : Cache) : Cache :=
  {| config := config c; redis := r; isReady := isReady c;
     connectPromise := connectPromise c |}.
Definition set_isReady (b : bool) (c : Cache) : Cache :=
  {| config := config c; redis := redis c; isReady := b;
     connectPromise := connectPromise c |}.
Definition set_connectPromise (p : option PromiseId) (c : Cache) : Cache :=
  {| config := config c; redis := redis c; isReady := isReady c;
     connectPromise := p |}.

(** [this.field = ...]. *)
Definition update (this : Ref) (f : Cache → Cache) (w : World S) : World S :=
  with_heap (alter f this) w.
End Updates.

(** ** Code that runs in one go: a state and exception monad

    Each method below except [connect] is embedded as one such computation:
    the single [await] of a data operation is its round trip to the store,
    and the computation contains it. *)

Definition M (S A : Type) : Type := World S → Result A * World S.

Section Monad.
Context {S : Type}.

Definition ret {A} (a : A) : M S A := fun w => (Ok a, w).
Definition throw {A} (e : JsError) : M S A := fun w => (Throw e, w).
Definition bind {A B} (m : M S A) (k : A → M S B) : M S B :=
  fun w =>
    match m w with
    | (Ok a, w') => k a w'
    | (Throw e, w') => (Throw e, w')
    end.
(** [try { m } catch (error) { handler(error) }]. *)
Definition try_catch {A} (m : M S A) (handler : JsError → M S A) : M S A :=
  fun w =>
    match m w with
    | (Ok a, w') => (Ok a, w')
    | (Throw e, w') => handler e w'
    end.
Definition reads {A} (f : World S → A) : M S A := fun w => (Ok (f w), w).
Definition modify (f : World S → World S) : M S unit := fun w => (Ok tt, f w).
Definition logger (l : Level) (event : string) : M S unit := modify (logged l event).
(** A call into a collaborator that does not touch the store. *)
Definition native {A} (o : Outcome A) : M S A := fun w => (lift_outcome o, w).
(** [this.config], [this.redis], ... *)
Definition deref (this : Ref) : M S Cache :=
  fun w =>
    match heap w !! this with
    | Some c => (Ok c, w)
    | None => (Throw type_error, w)
    end.
End Monad.

Declare Scope js_scope.
Delimit Scope js_scope with js.
Notation "'let*' x ':=' m 'in' k" := (bind m (fun x => k))
  (at level 10, x name, m at level 100, k at level 200,
   format "'[v' 'let*'  x  ':='  m  'in' '/' k ']'") : js_scope.
Notation "'exec' m 'in' k" := (bind m (fun _ => k))
  (at level 10, m at level 100, k at level 200,
   format "'[v' 'exec'  m  'in' '/' k ']'") : js_scope.
Local Open Scope js_scope.

(** ** class [Cache] *)

Section CacheClass.
Context {S : Type} `{!RedisClient S} `{!JsRuntime}.

Definition truthy {A} (o : option A) : bool :=
  match o with
  | Some _ => true
  | None => false
  end.

(** [process.env.NODE_ENV === "test"]. *)
Definition test_mode (w : World S) : bool :=
  bool_decide (NODE_ENV w = Some "test").

Definition getHost (w : World S) (c : Cache) : string :=
  if test_mode w then "localhost" else host (config c).

Definition getKey (w : World S) (key : string) : string :=
  if test_mode w then "test:" +:+ key else key.

(** The [retryStrategy] handed to the client; [jitter] is
    [Math.floor(Math.random() * 5000)]. *)
Definition retryStrategy (jitter : Z) (attempt : nat) : M S (option Z) :=
  let nextSleepTime := Z.min (2 ^ Z.of_nat attempt + jitter) 3000 in
  exec logger LWarn "cache.retrying" in
  ret (if (5 <=? attempt)%nat then None else Some nextSleepTime).

(** [String(port)]: a string is left as it is. *)
Definition port_text (p : PortSpec) : string :=
  match p with
  | PortText s => s
  | PortNumber n => String_of_number n
  end.

Definition getRedisConfig (w : World S) (c : Cache) : RedisOptions :=
  let cfg := config c in
  {| o_username := if negb (isEmpty (username cfg)) then username cfg else None;
     o_password := if negb (isEmpty (password cfg)) then password cfg else None;
     o_port := Number_parseInt (port_text (default (PortText "6379") (port cfg)));
     o_host := getHost w c;
     o_maxRetriesPerRequest := None;
     o_connectTimeout := default (Num 10000) (connectTimeout cfg);
     o_disconnectTimeout := 2000;
     o_enableOfflineQueue := false;
     o_tls := bool_decide (tlsEnabled cfg = Some true) |}.

(** [new Cache(config)]. *)
Definition new_Cache (cfg : CacheConfig) : Cache :=
  {| config := cfg; redis := None; isReady := false; connectPromise := None |}.

Definition getInstance (cfg : option CacheConfig) : M S Ref :=
  let* inst := reads instance in
  if negb (truthy inst) && negb (truthy cfg) then throw NotInitialized
  else
    exec (match cfg with
          | Some c =>
              if negb (truthy inst)
              then modify (fun w =>
                     with_instance (Some (length (heap w)))
                       (with_heap (fun h => h ++ [new_Cache c]) w))
              else ret tt
          | None => ret tt
          end) in
    let* inst' := reads instance in
    match inst' with
    | Some r => ret r
    | None => throw type_error
    end.

(** [redis.on(...)] six times: one more steady-state listener per event. *)
Definition setupListeners (h : Handle) (w : World S) : World S :=
  with_clients
    (alter (fun cl =>
       {| cl_options := cl_options cl; cl_owner := cl_owner cl;
          cl_attempt := cl_attempt cl; cl_timer := cl_timer cl;
          cl_steady := Datatypes.S (cl_steady cl) |}) h) w.

Definition getConnection (this : Ref) : M S Handle :=
  let* c := deref this in
  if isReady c then
    match redis c with
    | Some h => ret h
    | None => throw NotConnected
    end
  else throw NotConnected.

Definition isConnected (w : World S) (this : Ref) : bool :=
  match heap w !! this with
  | Some c => isReady c && truthy (redis c)
  | None => false
  end.

(** A single command: it goes out on the wire and the promise of the
    client resolves or rejects. *)
Definition call_client {A} (x : Wire) (f : S → Outcome A * S) : M S A :=
  fun w =>
    let '(o, s') := f (remote w) in
    (lift_outcome o, with_remote s' (emit x w)).

Definition shutdown (this : Ref) : M S unit :=
  let* c := deref this in
  exec (match redis c with
        | Some h =>
            exec modify (update this (set_isReady false)) in
            exec call_client (WQuit h) (redis_quit h) in
            modify (update this (set_redis None))
        | None => ret tt
        end) in
  modify (with_instance None).

Definition set (this : Ref) (rawKey : string) (value : JsValue)
    (ttl : option JsNum) : M S unit :=
  if isNil value then throw InvalidValue
  else
    let* redis := getConnection this in
    let* v := native (JSON_stringify value) in
    let* key := reads (fun w => getKey w rawKey) in
    exec (match ttl with
          | Some n =>
              if truthy_num n
              then call_client (WSend redis (CmdSetex key n v)) (redis_setex redis key n v)
              else call_client (WSend redis (CmdSet key v)) (redis_set redis key v)
          | None => call_client (WSend redis (CmdSet key v)) (redis_set redis key v)
          end) in
    logger LDebug "cache.set.successfully".

Definition get (this : Ref) (rawKey : string) : M S JsValue :=
  let* redis := getConnection this in
  let* key := reads (fun w => getKey w rawKey) in
  let* value := call_client (WSend redis (CmdGet key)) (redis_get redis key) in
  match value with
  | None =>
      exec logger LInfo "cache.get.miss" in
      ret Undefined
  | Some text =>
      exec logger LInfo "cache.get.hit" in
      match JSON_parse text with
      | Some j => ret (Data j)
      | None =>
          exec logger LWarn "cache.get.parse_failed" in
          ret (Data (JString text))
      end
  end.

(** [keys(pattern = "*")]. *)
Definition keys (this : Ref) (pattern : option string) : M S (list string) :=
  let pattern := default "*" pattern in
  let* redis := getConnection this in
  let* key := reads (fun w => getKey w pattern) in
  call_client (WSend redis (CmdKeys key)) (redis_keys redis key).

Definition del (this : Ref) (key : string) : M S unit :=
  let* redis := getConnection this in
  let* k := reads (fun w => getKey w key) in
  call_client (WSend redis (CmdDel k)) (redis_del redis k).

(** [pipeline.exec()]: every queued command is applied in turn and gives
    its own pair, unless the round trip fails as a whole. *)
Fixpoint apply_all (h : Handle) (cmds : list Command) (s : S)
    : list PipelineEntry * S :=
  match cmds with
  | [] => ([], s)
  | c :: rest =>
      let '(entry, s1) := pipeline_apply h c s in
      let '(entries, s2) := apply_all h rest s1 in
      (entry :: entries, s2)
  end.

Definition pipeline_exec (h : Handle) (cmds : list Command)
    : M S (list PipelineEntry) :=
  fun w =>
    let w1 := emit (WExec h cmds) w in
    match pipeline_fault h cmds (remote w) with
    | Some (x, s') => (Throw (Foreign x), with_remote s' w1)
    | None =>
        let '(entries, s') := apply_all h cmds (remote w) in
        (Ok entries, with_remote s' w1)
    end.

(** [operations] is the caller's builder: run against a fresh pipeline it
    queues commands, or throws. *)
Definition executePipeline (this : Ref) (operations : M S (list Command))
    : M S (list PipelineEntry) :=
  let* redis := getConnection this in
  let* pipeline := operations in
  try_catch
    (let* results := pipeline_exec redis pipeline in
     exec logger LDebug "cache.pipeline.executed_successfully" in
     ret results)
    (fun error =>
       exec logger LError "cache.pipeline.execution_failed" in
       throw error).

(** [{ key: string; value: unknown; ttl?: number }]. *)
Record BulkItem := {
  item_key : string;
  item_value : JsValue;
  item_ttl : option JsNum;
}.

(** The builder of [setBulk]: the [for ... of items] loop. *)
Fixpoint setBulk_operations (items : list BulkItem) : M S (list Command) :=
  match items with
  | [] => ret []
  | item :: rest =>
      let* serializedValue := native (JSON_stringify (item_value item)) in
      let* formattedKey := reads (fun w => getKey w (item_key item)) in
      let queued :=
        match item_ttl item with
        | Some n =>
            if truthy_num n
            then CmdSetex formattedKey n serializedValue
            else CmdSet formattedKey serializedValue
        | None => CmdSet formattedKey serializedValue
        end in
      let* pipeline := setBulk_operations rest in
      ret (queued :: pipeline)
  end.

(** [([err]) => err !== null]. *)
Definition has_error (entry : PipelineEntry) : bool := truthy (fst entry).

Definition setBulk (this : Ref) (items : list BulkItem) : M S unit :=
  let* results := executePipeline this (setBulk_operations items) in
  let errors := List.filter has_error results in
  if (0 <? length errors)%nat then
    exec logger LError "cache.set_bulk.partial_failure" in
    throw (PartialBulkFailure (length errors) (length items))
  else logger LDebug "cache.set_bulk.successfully".

Definition cacheInstance (cfg : option CacheConfig) : M S Ref :=
  getInstance cfg.
End CacheClass.

(** ** [createCacheStore] *)

Section CacheStore.
Context {S : Type} `{!RedisClient S} `{!JsRuntime}.

Record CacheStoreOptions := {
  namespace : string;
  defaultTTL : option JsNum;
}.

(** [const { namespace, defaultTTL = 60 * 60 * 24 } = options]. *)
Definition store_defaultTTL (options : CacheStoreOptions) : JsNum :=
  default (Num (60 * 60 * 24)) (defaultTTL options).

Definition storeName (options : CacheStoreOptions) : string :=
  snakeCase (namespace options).

Definition getNamespace (options : CacheStoreOptions) : string :=
  namespace options.

Definition isNewItem (options : CacheStoreOptions) (key : string) : M S bool :=
  try_catch
    (let fullKey := namespace options +:+ ":" +:+ key in
     let* cache := cacheInstance None in
     let* existingItem := get cache fullKey in
     ret (is_undefined existingItem))
    (fun error =>
       exec logger LError (storeName options +:+ ".is_new_item.error") in
       ret true).

(** [ttl: number = defaultTTL]: the default applies when no [ttl] is passed. *)
Definition saveItem (options : CacheStoreOptions) (key value : string)
    (ttl : option JsNum) : M S unit :=
  let ttl := default (store_defaultTTL options) ttl in
  try_catch
    (let fullKey := namespace options +:+ ":" +:+ key in
     let* cache := cacheInstance None in
     exec set cache fullKey (Data (JString value)) (Some ttl) in
     logger LInfo (storeName options +:+ ".save_item.success"))
    (fun error =>
       exec logger LError (storeName options +:+ ".save_item.error") in
       throw (SaveFailed (message error))).
End CacheStore.

(** ** [flushCache] ([src/utils.ts]) *)

(** The rest of [s] after the prefix [p], when [s] starts with [p]. *)
Fixpoint strip_prefix (p s : string) : option string :=
  match p with
  | EmptyString => Some s
  | String a p' =>
      match s with
      | String b s' => if bool_decide (a = b) then strip_prefix p' s' else None
      | EmptyString => None
      end
  end.

(** [key.replace(/^test:/, "")] (the replacement is the empty string). *)
Definition strip_test (key : string) : string :=
  default key (strip_prefix "test:" key).

Section Utils.
Context {S : Type} `{!RedisClient S} `{!JsRuntime}.

(** [Promise.all(calls)] over calls that were all started by the [map]
    before it: each one runs, whatever became of the others; the result is
    the rejection of the first one that fails, in the order of the calls. *)
Fixpoint promise_all (started : list (M S unit)) : M S unit :=
  match started with
  | [] => ret tt
  | m :: rest =>
      fun w =>
        let '(r, w1) := m w in
        let '(rs, w2) := promise_all rest w1 in
        (match r with
         | Throw e => Throw e
         | Ok _ => rs
         end, w2)
  end.

Definition flushCache (cache : Ref) : M S unit :=
  let* found := keys cache None in
  let testKeys := map strip_test found in
  promise_all (map (fun key => del cache key) testKeys).
End Utils.

(** ** [connect()] and the event loop

    [connect] is the one method that waits for events, so it is embedded as
    the steps the event loop takes: the synchronous part of a call, the
    listeners that run when the client emits an event or the timer fires, and
    the promise reactions that run when the microtask queue is drained.  The
    five seconds of the timer are not modelled: an armed timer may fire at
    any step. *)

Inductive ClientEvent :=
  | EvConnect
  | EvReady
  | EvError (x : Exn)
  | EvClose
  | EvReconnecting
  | EvEnd.

Inductive Step :=
  | CallConnect (this : Ref)
  | Emit (h : Handle) (ev : ClientEvent)
  | TimerFires (h : Handle)
  | Microtasks.

Section Connect.
Context {S : Type} `{!RedisClient S} `{!JsRuntime}.

Definition set_timer (t : Timer) (cl : Client) : Client :=
  {| cl_options := cl_options cl; cl_owner := cl_owner cl;
     cl_attempt := cl_attempt cl; cl_timer := t; cl_steady := cl_steady cl |}.

(** [clearTimeout(timeoutId)]: nothing happens to a timer that has fired. *)
Definition clearTimeout (h : Handle) (w : World S) : World S :=
  with_clients
    (alter (fun cl =>
       match cl_timer cl with
       | Armed => set_timer Cleared cl
       | _ => cl
       end) h) w.

(** [resolve()] and [reject(error)]: a settled promise stays as it is. *)
Definition resolve (p : PromiseId) (w : World S) : World S :=
  with_promises
    (alter (fun s => match s with Pending => Fulfilled | _ => s end) p) w.

Definition reject (p : PromiseId) (e : JsError) (w : World S) : World S :=
  with_promises
    (alter (fun s => match s with Pending => Rejected e | _ => s end) p) w.

Definition new_Client (o : RedisOptions) (this : Ref) (p : PromiseId) : Client :=
  {| cl_options := o; cl_owner := this; cl_attempt := p;
     cl_timer := Armed; cl_steady := 0 |}.

(** The executor of [new Promise((resolve, reject) => ...)], where [p] is
    the promise being made. *)
Definition executor (this : Ref) (c : Cache) (p : PromiseId) (w : World S)
    : World S :=
  let o := getRedisConfig w c in
  let w := emit (WNew o) w in
  match redis_new o with
  | Some x => with_promises (fun ps => ps ++ [Rejected (Foreign x)]) w
  | None =>
      let h := length (clients w) in
      update this (set_redis (Some h))
        (with_clients (fun cs => cs ++ [new_Client o this p])
           (with_promises (fun ps => ps ++ [Pending]) w))
  end.

Definition returns (c : Call) (w : World S) : World S :=
  with_calls (fun cs => cs ++ [c]) w.

(** A call of [connect()], up to its [return] or its [await]. *)
Definition connect (this : Ref) (w : World S) : World S :=
  match heap w !! this with
  | None => returns (Settled (Throw type_error)) w
  | Some c =>
      if isReady c && truthy (redis c) then returns (Settled (Ok tt)) w
      else
        match connectPromise c with
        | Some p => returns (Following p) w
        | None =>
            let p := length (promises w) in
            let w := executor this c p w in
            let w := update this (set_connectPromise (Some p)) w in
            returns (Awaiting this p) w
        end
  end.

(** The two listeners that [connect] registers on its client. *)
Definition attempt_listener (h : Handle) (cl : Client) (ev : ClientEvent)
    : M S unit :=
  match ev with
  | EvReady =>
      exec modify (clearTimeout h) in
      exec modify (update (cl_owner cl) (set_isReady true)) in
      let* c := deref (cl_owner cl) in
      exec (match redis c with
            | Some r => modify (setupListeners r)
            | None => throw type_error
            end) in
      modify (resolve (cl_attempt cl))
  | EvError x =>
      exec modify (clearTimeout h) in
      exec modify (update (cl_owner cl) (set_isReady false)) in
      modify (reject (cl_attempt cl) (Foreign x))
  | _ => ret tt
  end.

(** One round of the listeners of [setupListeners]. *)
Definition steady_listener (cl : Client) (ev : ClientEvent) (w : World S)
    : World S :=
  match ev with
  | EvConnect => logged LInfo "cache.connected" w
  | EvReady => logged LInfo "cache.ready" w
  | EvError _ => logged LError "cache.error" w
  | EvClose =>
      update (cl_owner cl) (set_isReady false) (logged LInfo "cache.closed" w)
  | EvReconnecting => logged LInfo "cache.reconnecting" w
  | EvEnd => logged LInfo "cache.ended" w
  end.

(** The client [h] emits [ev]: its listeners run in the order in which they
    were registered, those present when the event is emitted. *)
Definition fire (h : Handle) (ev : ClientEvent) (w : World S) : World S :=
  match clients w !! h with
  | None => w
  | Some cl =>
      match attempt_listener h cl ev w with
      | (Ok _, w1) => Nat.iter (cl_steady cl) (steady_listener cl ev) w1
      | (Throw e, w1) => escaped e w1
      end
  end.

(** The callback of [setTimeout(..., 5000)]. *)
Definition timeout (h : Handle) (w : World S) : World S :=
  match clients w !! h with
  | None => w
  | Some cl =>
      match cl_timer cl with
      | Armed =>
          let w := with_clients (alter (set_timer Fired) h) w in
          let w := reject (cl_attempt cl) ConnectionTimeout w in
          match heap w !! cl_owner cl ≫= redis with
          | Some r => emit (WDisconnect r) w
          | None => w
          end
      | _ => w
      end
  end.

Definition outcome_of (s : Settlement) : option (Result unit) :=
  match s with
  | Pending => None
  | Fulfilled => Some (Ok tt)
  | Rejected e => Some (Throw e)
  end.

Definition settled (w : World S) (p : PromiseId) : option (Result unit) :=
  promises w !! p ≫= outcome_of.

(** What the caller of a waiting call sees once the promise has settled. *)
Definition resume (w : World S) (c : Call) : Call :=
  match c with
  | Settled r => Settled r
  | Following p => from_option Settled c (settled w p)
  | Awaiting _ p => from_option Settled c (settled w p)
  end.

(** [finally { this.connectPromise = null; }]. *)
Definition finally (w0 : World S) (c : Call) (w : World S) : World S :=
  match c with
  | Awaiting this p =>
      if truthy (settled w0 p)
      then update this (set_connectPromise None) w
      else w
  | _ => w
  end.

(** Draining the microtask queue. *)
Definition microtasks (w : World S) : World S :=
  with_calls (map (resume w)) (foldl (fun acc c => finally w c acc) w (calls w)).

Definition step (w : World S) (st : Step) : World S :=
  match st with
  | CallConnect this => connect this w
  | Emit h ev => fire h ev w
  | TimerFires h => timeout h w
  | Microtasks => microtasks w
  end.

Definition run (sts : list Step) (w : World S) : World S :=
  foldl step w sts.

(** The number of times [new Redis(...)] ran. *)
Definition attempts (w : World S) : nat :=
  length (List.filter (fun x => match x with WNew _ => true | _ => false end) (wire w)).

(** The number of times [disconnect()] ran on the client [h]. *)
Definition disconnects (h : Handle) (w : World S) : nat :=
  length (List.filter
    (fun x => match x with WDisconnect h' => bool_decide (h' = h) | _ => false end)
    (wire w)).
End Connect.

(** ** Test doubles

    A small runtime and an in-memory store behind a fake client, on which the
    examples below run.  Nothing is proved from their particulars. *)

Module Sample.
Definition quote : string := String (ascii_of_nat 34) EmptyString.

(** A reader of decimal numbers for the texts of the examples: blanks, a
    sign, digits. *)
Definition is_space (a : ascii) : bool :=
  let n := nat_of_ascii a in
  bool_decide (n = 32 ∨ n = 9 ∨ n = 10 ∨ n = 11 ∨ n = 12 ∨ n = 13)%nat.

Fixpoint skip_spaces (s : string) : string :=
  match s with
  | String a rest => if is_space a then skip_spaces rest else s
  | EmptyString => s
  end.

Definition digit_of (a : ascii) : option Z :=
  let n := Z.of_nat (nat_of_ascii a) in
  if (48 <=? n) && (n <=? 57) then Some (n - 48) else None.

(** The value of the longest prefix of decimal digits, if there is one. *)
Fixpoint digits (s : string) (acc : option Z) : option Z :=
  match s with
  | String a rest =>
      match digit_of a with
      | Some d => digits rest (Some (10 * default 0 acc + d))
      | None => acc
      end
  | EmptyString => acc
  end.

Definition parseInt (s : string) : JsNum :=
  match skip_spaces s with
  | String "-" rest => from_option (fun z => Num (- z)) NaN (digits rest None)
  | String "+" rest => from_option Num NaN (digits rest None)
  | rest => from_option Num NaN (digits rest None)
  end.

Definition number_text (n : JsNum) : string :=
  match n with
  | Num z => pretty z
  | NaN => "NaN"
  end.

Fixpoint all_digits (s : string) : bool :=
  match s with
  | String a rest => truthy (digit_of a) && all_digits rest
  | EmptyString => true
  end.

(** The text between two double quotes, when there are no others. *)
Fixpoint unquoted_body (s : string) : option string :=
  match s with
  | EmptyString => None
  | String a rest =>
      if bool_decide (a = ascii_of_nat 34)
      then (if bool_decide (rest = EmptyString) then Some EmptyString else None)
      else String a <$> unquoted_body rest
  end.

Definition parse (s : string) : option Json :=
  if bool_decide (s = "null") then Some JNull
  else if bool_decide (s = "true") then Some (JBool true)
  else if bool_decide (s = "false") then Some (JBool false)
  else
    match s with
    | EmptyString => None
    | String a rest =>
        if bool_decide (a = ascii_of_nat 34)
        then JString <$> unquoted_body rest
        else if all_digits s then JNumber <$> (Num <$> digits s None)
        else None
    end.

Fixpoint stringify_json (j : Json) : string :=
  match j with
  | JNull => "null"
  | JBool true => "true"
  | JBool false => "false"
  | JNumber (Num z) => pretty z
  | JNumber NaN => "null"
  | JString s => quote +:+ s +:+ quote
  | JArray items =>
      "[" +:+ String.concat "," (map stringify_json items) +:+ "]"
  | JObject fields =>
      "{" +:+ String.concat ","
               (map (fun kv => quote +:+ fst kv +:+ quote +:+ ":" +:+ stringify_json (snd kv))
                    fields) +:+ "}"
  end.

Definition stringify (v : JsValue) : Outcome Payload :=
  match v with
  | Undefined => Done None
  | Data j => Done (Some (stringify_json j))
  | Exotic tag =>
      if bool_decide (tag = "bigint")
      then Failed (mkExn "TypeError" "Do not know how to serialize a BigInt")
      else Done None
  end.

#[global] Instance runtime : JsRuntime :=
  {| JSON_parse := parse; JSON_stringify := stringify;
     Number_parseInt := parseInt; String_of_number := number_text;
     snakeCase := id |}.

(** The store: texts with their time to live, and whether the link is up. *)
Record Store := {
  entries : list (string * (string * option Z));
  link_up : bool;
}.

Definition lookup_entry (k : string) (s : Store) : option (string * option Z) :=
  snd <$> List.find (fun e => bool_decide (fst e = k)) (entries s).

Definition remove_entry (k : string) (s : Store) : Store :=
  {| entries := List.filter (fun e => negb (bool_decide (fst e = k))) (entries s);
     link_up := link_up s |}.

Definition put_entry (k text : string) (ttl : option Z) (s : Store) : Store :=
  {| entries := (k, (text, ttl)) :: entries (remove_entry k s);
     link_up := link_up s |}.

Fixpoint glob (p s : string) : bool :=
  match p with
  | EmptyString => bool_decide (s = EmptyString)
  | String c p' =>
      if bool_decide (c = "*"%char) then
        (fix skip (s : string) : bool :=
           glob p' s ||
           match s with
           | String _ s' => skip s'
           | EmptyString => false
           end) s
      else
        match s with
        | String d s' => bool_decide (c = d) && glob p' s'
        | EmptyString => false
        end
  end.

Definition wrong_ttl : Exn :=
  mkExn "ReplyError" "ERR invalid expire time in 'setex' command".
Definition closed : Exn := mkExn "Error" "Connection is closed.".
Definition unknown_command : Exn := mkExn "ReplyError" "ERR unknown command".

(** One command against the store. *)
Definition apply (c : Command) (s : Store) : PipelineEntry * Store :=
  match c with
  | CmdGet k => ((None, from_option (fun e => RText (fst e)) RNull (lookup_entry k s)), s)
  | CmdSet k v => ((None, RText "OK"), put_entry k (default EmptyString v) None s)
  | CmdSetex k (Num z) v =>
      if 0 <? z then ((None, RText "OK"), put_entry k (default EmptyString v) (Some z) s)
      else ((Some wrong_ttl, RNull), s)
  | CmdSetex k NaN v => ((Some wrong_ttl, RNull), s)
  | CmdDel k => ((None, RInt (if truthy (lookup_entry k s) then 1 else 0)), remove_entry k s)
  | CmdKeys p =>
      ((None, RList (List.filter (glob p) (map fst (entries s)))), s)
  | CmdOther _ _ => ((Some unknown_command, RNull), s)
  end.

(** A single command: rejected when the link is down or the store refuses. *)
Definition send {A} (c : Command) (read : Reply → A) (s : Store)
    : Outcome A * Store :=
  if link_up s then
    match apply c s with
    | ((Some x, _), s') => (Failed x, s')
    | ((None, r), s') => (Done (read r), s')
    end
  else (Failed closed, s).

Definition as_text (r : Reply) : option string :=
  match r with
  | RText t => Some t
  | _ => None
  end.

Definition as_list (r : Reply) : list string :=
  match r with
  | RList l => l
  | _ => []
  end.

(** The fake client; [ctor_throws] makes [new Redis(...)] throw. *)
Definition client (ctor_throws : bool) : RedisClient Store :=
  {| redis_new := fun _ =>
       if ctor_throws then Some (mkExn "Error" "Invalid argument") else None;
     redis_get := fun _ k => send (CmdGet k) as_text;
     redis_set := fun _ k v => send (CmdSet k v) (fun _ => tt);
     redis_setex := fun _ k n v => send (CmdSetex k n v) (fun _ => tt);
     redis_del := fun _ k => send (CmdDel k) (fun _ => tt);
     redis_keys := fun _ p => send (CmdKeys p) as_list;
     redis_quit := fun _ s => (Done tt, s);
     pipeline_apply := fun _ => apply;
     pipeline_fault := fun _ _ s => if link_up s then None else Some (closed, s) |}.

#[global] Instance default_client : RedisClient Store := client false.

Definition empty_store : Store := {| entries := []; link_up := true |}.

Definition cfg : CacheConfig :=
  {| host := "redis.example.com"; port := Some (PortNumber (Num 6379));
     username := Some EmptyString; password := Some "admin";
     tlsEnabled := None; connectTimeout := None |}.

(** A process that has just started, with [NODE_ENV] as given. *)
Definition boot (env : option string) : World Store :=
  {| heap := []; instance := None; NODE_ENV := env; clients := [];
     promises := []; calls := []; remote := empty_store; wire := [];
     log := []; uncaught := [] |}.

(** After [cacheInstance(cfg)]: one object, not connected. *)
Definition fresh (env : option string) : World Store :=
  snd (cacheInstance (Some cfg) (boot env)).

(** After [connect()] and the [ready] event of the client. *)
Definition connected (env : option string) : World Store :=
  run [CallConnect 0%nat; Emit 0%nat EvReady; Microtasks] (fresh env).
End Sample.

(** ** The vocabulary of the properties *)

(** The wire entries that running [m] from [w] adds. *)
Definition sent_by {S A} (m : M S A) (w : World S) : list Wire :=
  drop (length (wire w)) (wire (snd (m w))).

(** [this] is a connected manager, and [h] is its handle. *)
Definition connected_as {S} (w : World S) (this : Ref) (h : Handle) : Prop :=
  ∃ c, heap w !! this = Some c ∧ isReady c = true ∧ redis c = Some h.

(** [this] is a manager whose readiness flag is false or whose handle is null. *)
Definition disconnected {S} (w : World S) (this : Ref) : Prop :=
  ∃ c, heap w !! this = Some c ∧ (isReady c = false ∨ redis c = None).

(** The key that a command names. *)
Definition command_key (c : Command) : option string :=
  match c with
  | CmdGet k | CmdSet k _ | CmdSetex k _ _ | CmdDel k | CmdKeys k => Some k
  | CmdOther _ _ => None
  end.

(** The keys named on a stretch of wire, in order. *)
Definition keys_on_wire (l : list Wire) : list string :=
  l ≫= λ x,
    match x with
    | WSend _ c => option_list (command_key c)
    | WExec _ cs => omap command_key cs
    | _ => []
    end.

Section Vocabulary.
Context {S : Type} `{!RedisClient S} `{!JsRuntime}.

(** The text that [JSON.stringify] gives for [v], when it does not throw. *)
Definition payload_of (v : JsValue) : Payload :=
  match JSON_stringify v with
  | Done pl => pl
  | Failed _ => None
  end.

Definition serializable (v : JsValue) : Prop :=
  ∃ pl, JSON_stringify v = Done pl.

(** The write that a key, a value and a [ttl] lead to. *)
Definition write_of (w : World S) (k : string) (v : JsValue)
    (ttl : option JsNum) : Command :=
  match ttl with
  | Some n =>
      if truthy_num n
      then CmdSetex (getKey w k) n (payload_of v)
      else CmdSet (getKey w k) (payload_of v)
  | None => CmdSet (getKey w k) (payload_of v)
  end.

(** Every operation that takes a key names, on the wire, the key [phys k]. *)
Definition keyed_operations_use (w : World S) (this : Ref)
    (phys : string → string) : Prop :=
  (∀ k v ttl, isNil v = false → serializable v →
     keys_on_wire (sent_by (set this k v ttl) w) = [phys k]) ∧
  (∀ k, keys_on_wire (sent_by (get this k) w) = [phys k]) ∧
  (∀ k, keys_on_wire (sent_by (del this k) w) = [phys k]) ∧
  (∀ pattern, keys_on_wire (sent_by (keys this pattern) w) = [phys (default "*" pattern)]) ∧
  (∀ items, Forall (λ item, serializable (item_value item)) items →
     keys_on_wire (sent_by (setBulk this items) w) = map (λ item, phys (item_key item)) items).

End Vocabulary.

(** The calls of [connect()] made since the world [w0]. *)
Definition calls_since {S} (w0 w : World S) : list Call :=
  drop (length (calls w0)) (calls w).

(** The three ways in which the attempt on the client [h] ends, each with
    the outcome it gives to the promise of the attempt. *)
Inductive settles (h : Handle) : Step → Result unit → Prop :=
  | settles_ready : settles h (Emit h EvReady) (Ok tt)
  | settles_error x : settles h (Emit h (EvError x)) (Throw (Foreign x))
  | settles_timeout : settles h (TimerFires h) (Throw ConnectionTimeout).


(** Three items for [setBulk]; the second has a [ttl] that the store refuses. *)
Definition three_items : list BulkItem :=
  [ {| item_key := "a"; item_value := Data (JNumber (Num 1)); item_ttl := None |};
    {| item_key := "b"; item_value := Data (JNumber (Num 2)); item_ttl := Some (Num (-1)) |};
    {| item_key := "c"; item_value := Data (JNumber (Num 3)); item_ttl := Some (Num 60) |} ].

(** ** The vocabulary of the further properties *)

Section VocabularyOfWrites.
Context {S : Type} `{!RedisClient S} `{!JsRuntime}.

(** The call on the client that [set] makes for a [ttl]. *)
Definition client_write (h : Handle) (key : string) (ttl : option JsNum)
    (v : Payload) (s : S) : Outcome unit * S :=
  match ttl with
  | Some n => if truthy_num n then redis_setex h key n v s else redis_set h key v s
  | None => redis_set h key v s
  end.
End VocabularyOfWrites.

(** Whether a colon occurs in [s]. *)
Fixpoint has_colon (s : string) : bool :=
  match s with
  | EmptyString => false
  | String a rest => bool_decide (a = ":"%char) || has_colon rest
  end.

(** A client whose [quit()] rejects, and that is otherwise the fake client. *)
Definition refusing_quit : RedisClient Sample.Store :=
  {| redis_new := @redis_new _ (Sample.client false);
     redis_get := @redis_get _ (Sample.client false);
     redis_set := @redis_set _ (Sample.client false);
     redis_setex := @redis_setex _ (Sample.client false);
     redis_del := @redis_del _ (Sample.client false);
     redis_keys := @redis_keys _ (Sample.client false);
     redis_quit := fun _ s => (Failed Sample.closed, s);
     pipeline_apply := @pipeline_apply _ (Sample.client false);
     pipeline_fault := @pipeline_fault _ (Sample.client false) |}.

(** The client [h] belongs to the manager [this] and its attempt is pending:
    it has emitted neither [ready] nor [error], and its timer has not
    fired. *)
Definition pending_on {S} (w : World S) (h : Handle) (this : Ref) : Prop :=
  ∃ cl, clients w !! h = Some cl ∧ cl_owner cl = this ∧
        promises w !! cl_attempt cl = Some Pending.

(** What the event loop keeps true of the attempts: each client has its own
    promise; a pending attempt is the one its manager records; and a call
    that waits for its [finally] waits on the promise its manager records. *)
Record coherent {S} (w : World S) : Prop := {
  attempts_exist :
    ∀ h cl, clients w !! h = Some cl →
      (cl_attempt cl < length (promises w))%nat;
  attempts_apart :
    ∀ h1 h2 cl1 cl2, clients w !! h1 = Some cl1 → clients w !! h2 = Some cl2 →
      cl_attempt cl1 = cl_attempt cl2 → h1 = h2;
  pending_recorded :
    ∀ h cl, clients w !! h = Some cl →
      promises w !! cl_attempt cl = Some Pending →
      ∃ c, heap w !! cl_owner cl = Some c ∧
           connectPromise c = Some (cl_attempt cl);
  waiting_recorded :
    ∀ this p, Awaiting this p ∈ calls w →
      ∃ c, heap w !! this = Some c ∧ connectPromise c = Some p;
}.

(** A change of the world that makes no call, no client and no promise, and
    leaves the recorded promises alone; promises may settle. *)
Record quiet {S} (w w' : World S) : Prop := {
  quiet_calls : calls w' = calls w;
  quiet_length : length (promises w') = length (promises w);
  quiet_pending :
    ∀ p, promises w' !! p = Some Pending → promises w !! p = Some Pending;
  quiet_clients :
    ∀ h cl', clients w' !! h = Some cl' →
      ∃ cl, clients w !! h = Some cl ∧ cl_owner cl = cl_owner cl' ∧
            cl_attempt cl = cl_attempt cl';
  quiet_heap :
    ∀ this c, heap w !! this = Some c →
      ∃ c', heap w' !! this = Some c' ∧ connectPromise c' = connectPromise c;
}.

(** ** The vocabulary of concurrent callers *)




(** * Properties *)

Ltac unfold_M :=
  unfold bind, ret, throw, reads, modify, logger, native, deref, try_catch,
    call_client in *.

Section Gate.
Context {S : Type} `{!RedisClient S} `{!JsRuntime}.

Lemma getConnection_connected (w : World S) this h :
  connected_as w this h → getConnection this w = (Ok h, w).
Proof.
  intros (c & Hc & Hr & Hh). unfold getConnection. unfold_M.
  by rewrite Hc, Hr, Hh.
Qed.

Lemma getConnection_disconnected (w : World S) this :
  disconnected w this → getConnection this w = (Throw NotConnected, w).
Proof.
  intros (c & Hc & Hd). unfold getConnection. unfold_M. rewrite Hc.
  destruct Hd as [-> | ->]; [done | by destruct (isReady c)].
Qed.

Lemma isConnected_connected (w : World S) this :
  isConnected w this = true ↔ ∃ h, connected_as w this h.
Proof.
  unfold isConnected, connected_as. split.
  - destruct (heap w !! this) as [c|] eqn:Hc; [|done].
    destruct (isReady c) eqn:Hr, (redis c) as [h|] eqn:Hh; try done.
    intros _. by exists h, c.
  - intros (h & c & -> & -> & ->). done.
Qed.

End Gate.

Section Singleton.
Context {S : Type} `{!RedisClient S} `{!JsRuntime}.

(** C9.  The singleton accessor: with no instance and no configuration it
    fails with [NotInitialized] and changes nothing; with no instance and a
    configuration it allocates a new, unconnected object holding that
    configuration, stores it as the instance and returns it; with an instance
    it returns that very object and changes nothing, whatever configuration
    is passed.  [cacheInstance] is [getInstance]. *)
Theorem getInstance_singleton (w : World S) :
  (instance w = None →
     getInstance None w = (Throw NotInitialized, w) ∧
     ∀ cfg, ∃ w',
       getInstance (Some cfg) w = (Ok (length (heap w)), w') ∧
       instance w' = Some (length (heap w)) ∧
       heap w' = heap w ++ [new_Cache cfg] ∧
       heap w' !! length (heap w) = Some (new_Cache cfg)) ∧
  (∀ r cfg, instance w = Some r → getInstance cfg w = (Ok r, w)) ∧
  (∀ cfg, cacheInstance cfg w = getInstance cfg w).
Proof.
  split; [|split].
  - intros Hi. split.
    + unfold getInstance. unfold_M. by rewrite Hi.
    + intros cfg. eexists. unfold getInstance. unfold_M. rewrite Hi. simpl.
      split; [reflexivity|]. simpl. split; [done|]. split; [done|].
      by rewrite lookup_app_r, Nat.sub_diag.
  - intros r cfg Hi. unfold getInstance. unfold_M. rewrite Hi. simpl.
    destruct cfg; simpl; rewrite Hi; by destruct w.
  - done.
Qed.
End Singleton.

Section NullGuard.
Context {S : Type} `{!RedisClient S} `{!JsRuntime}.

Lemma set_nil (w : World S) this k v ttl :
  isNil v = true → set this k v ttl w = (Throw InvalidValue, w).
Proof. intros Hv. unfold set. by rewrite Hv. Qed.

Lemma call_client_foreign {A} x (f : S → Outcome A * S) (w : World S) :
  fst (call_client x f w) ≠ Throw InvalidValue.
Proof.
  unfold call_client. destruct (f (remote w)) as [[a|e] s']; simpl; done.
Qed.

(** C4.  [set(k, v)] fails with [InvalidValue] ("Value is null or
    undefined") for every [v] that is [null] or [undefined], whatever the
    state of the manager; for every other [v] it never fails with that
    error. *)
Theorem set_null_guard (w : World S) this k v ttl :
  (v = Undefined ∨ v = Data JNull →
     fst (set this k v ttl w) = Throw InvalidValue ∧
     message InvalidValue = "Value is null or undefined") ∧
  (v ≠ Undefined → v ≠ Data JNull →
     fst (set this k v ttl w) ≠ Throw InvalidValue).
Proof.
  split.
  - intros Hv. rewrite set_nil; [done|]. by destruct Hv as [-> | ->].
  - intros Hu Hn. unfold set.
    assert (isNil v = false) as -> by (destruct v as [|[]|]; done).
    unfold bind at 1. unfold getConnection. unfold_M.
    destruct (heap w !! this) as [c|]; [|done].
    destruct (isReady c); [|done]. destruct (redis c) as [h|]; [|done].
    destruct (JSON_stringify v) as [pl|x]; simpl; [|done].
    pose proof (call_client_foreign (WSend h (CmdSet (getKey w k) pl))
                  (redis_set h (getKey w k) pl) w) as Hset.
    unfold call_client in Hset.
    destruct ttl as [n|].
    + destruct (truthy_num n).
      * pose proof (call_client_foreign (WSend h (CmdSetex (getKey w k) n pl))
                      (redis_setex h (getKey w k) n pl) w) as Hsetex.
        unfold call_client in Hsetex.
        destruct (redis_setex h (getKey w k) n pl (remote w)) as [[?|?] ?];
          simpl in *; done.
      * destruct (redis_set h (getKey w k) pl (remote w)) as [[?|?] ?];
          simpl in *; done.
    + destruct (redis_set h (getKey w k) pl (remote w)) as [[?|?] ?];
        simpl in *; done.
Qed.
End NullGuard.

(** Witness of C4: [null] is refused, the text ["v"] is not. *)
Lemma set_null_guard_witness :
  fst (set 0%nat "k" (Data JNull) None (Sample.connected None)) = Throw InvalidValue ∧
  fst (set 0%nat "k" (Data (JString "v")) None (Sample.connected None))
    ≠ Throw InvalidValue.
Proof.
  split.
  - apply (set_null_guard (Sample.connected None) 0%nat "k" (Data JNull) None).
    by right.
  - by apply (set_null_guard (Sample.connected None) 0%nat "k"
                (Data (JString "v")) None).
Defined.

Section FailFast.
Context {S : Type} `{!RedisClient S} `{!JsRuntime}.

(** C2, as amended.  On a manager whose readiness flag is false or whose
    handle is null, [get], [keys], [del], [executePipeline] and [setBulk]
    fail with [NotConnected] and leave the world as it was: nothing is
    validated, sent, logged or built before the gate.  [set] checks its value
    first: it fails with [InvalidValue] for [null] and [undefined], and with
    [NotConnected] for any other value, again leaving the world as it was. *)
Theorem gate_before_everything_but_null_guard (w : World S) this :
  disconnected w this →
  (∀ k, get this k w = (Throw NotConnected, w)) ∧
  (∀ pattern, keys this pattern w = (Throw NotConnected, w)) ∧
  (∀ k, del this k w = (Throw NotConnected, w)) ∧
  (∀ operations, executePipeline this operations w = (Throw NotConnected, w)) ∧
  (∀ items, setBulk this items w = (Throw NotConnected, w)) ∧
  (∀ k v ttl, isNil v = false → set this k v ttl w = (Throw NotConnected, w)) ∧
  (∀ k v ttl, isNil v = true → set this k v ttl w = (Throw InvalidValue, w)).
Proof.
  intros Hd. pose proof (getConnection_disconnected w this Hd) as Hg.
  repeat split; intros.
  - unfold get, bind. by rewrite Hg.
  - unfold keys, bind. by rewrite Hg.
  - unfold del, bind. by rewrite Hg.
  - unfold executePipeline, bind. by rewrite Hg.
  - unfold setBulk, executePipeline, bind. by rewrite Hg.
  - unfold set. rewrite H0. unfold bind. by rewrite Hg.
  - by apply set_nil.
Qed.
End FailFast.

(** Witness of C2 as amended: a manager that was never connected. *)
Lemma gate_before_everything_but_null_guard_witness :
  get 0%nat "k" (Sample.fresh None) = (Throw NotConnected, Sample.fresh None) ∧
  set 0%nat "k" Undefined None (Sample.fresh None)
    = (Throw InvalidValue, Sample.fresh None).
Proof.
  assert (disconnected (Sample.fresh None) 0%nat) as Hd.
  { eexists. split; [reflexivity|]. by left. }
  pose proof (gate_before_everything_but_null_guard (Sample.fresh None) 0%nat Hd)
    as (Hget & _ & _ & _ & _ & _ & Hset).
  split; [apply Hget | by apply Hset].
Defined.

(** Counterexample to C2 as stated: on a manager that is not connected,
    [set("k", null)] does not fail with [NotConnected]; the null guard runs
    before the gate and the call fails with [InvalidValue]. *)
Lemma set_null_before_gate :
  isConnected (Sample.fresh None) 0%nat = false ∧
  fst (set 0%nat "k" (Data JNull) None (Sample.fresh None)) = Throw InvalidValue ∧
  fst (set 0%nat "k" (Data JNull) None (Sample.fresh None)) ≠ Throw NotConnected.
Proof. repeat split; vm_compute; congruence. Qed.

Section Get.
Context {S : Type} `{!RedisClient S} `{!JsRuntime}.

(** C5.  On a connected manager, when the client's [get] of the physical key
    resolves: to [null], [get] returns [undefined]; to a text that
    [JSON.parse] accepts, the decoded value; to a text that [JSON.parse]
    refuses, that text itself.  In none of the three cases does [get] throw. *)
Theorem get_miss_decode_fallback (w : World S) this h k reply s' :
  connected_as w this h →
  redis_get h (getKey w k) (remote w) = (Done reply, s') →
  fst (get this k w) =
    match reply with
    | None => Ok Undefined
    | Some text =>
        match JSON_parse text with
        | Some j => Ok (Data j)
        | None => Ok (Data (JString text))
        end
    end.
Proof.
  intros Hc Hr. unfold get. unfold bind at 1.
  rewrite (getConnection_connected w this h Hc). unfold_M. rewrite Hr. simpl.
  destruct reply as [text|]; [|done].
  simpl. by destruct (JSON_parse text).
Qed.
End Get.

(** Witness of C5: a text that is not JSON, stored by other means. *)
Lemma get_miss_decode_fallback_witness :
  fst (get 0%nat "k"
         (with_remote (Sample.put_entry "k" "not-json" None Sample.empty_store)
            (Sample.connected None)))
  = Ok (Data (JString "not-json")).
Proof.
  refine (get_miss_decode_fallback _ 0%nat 0%nat "k" (Some "not-json") _ _ _).
  - eexists. repeat split; reflexivity.
  - reflexivity.
Defined.

Section FailOpen.
Context {S : Type} `{!RedisClient S} `{!JsRuntime}.

(** C7.  [isNewItem(key)] never throws.  With [lookup] the call
    [cacheInstance().get(namespace + ":" + key)] that it makes: it returns
    [true] when the lookup returns [undefined], [true] when the lookup throws
    (whatever the error), and [false] exactly when the lookup returns a value
    other than [undefined]. *)
Theorem isNewItem_fail_open (options : CacheStoreOptions) key (w : World S) :
  let lookup : M S JsValue :=
    let* cache := cacheInstance None in
    get cache (namespace options +:+ ":" +:+ key) in
  (∃ b, fst (isNewItem options key w) = Ok b) ∧
  (∀ w', lookup w = (Ok Undefined, w') →
     fst (isNewItem options key w) = Ok true) ∧
  (∀ e w', lookup w = (Throw e, w') →
     fst (isNewItem options key w) = Ok true) ∧
  (fst (isNewItem options key w) = Ok false ↔
     ∃ v w', lookup w = (Ok v, w') ∧ v ≠ Undefined).
Proof.
  intros lookup.
  assert (isNewItem options key w =
          match lookup w with
          | (Ok v, w') => (Ok (is_undefined v), w')
          | (Throw e, w') =>
              (Ok true, logged LError (storeName options +:+ ".is_new_item.error") w')
          end) as Heq.
  { unfold isNewItem, lookup, try_catch, bind.
    destruct (cacheInstance None w) as [[r|e] w1]; [|done].
    destruct (get r _ w1) as [[v|e] w2]; done. }
  rewrite Heq. clear Heq.
  destruct (lookup w) as [[v|e] w1]; simpl.
  - split; [by eexists|]. split; [by intros ? [= ->]|]. split; [done|]. split.
    + intros [= Hv]. exists v, w1. split; [done|]. by intros ->.
    + intros (v' & w' & [= <- <-] & Hv). by destruct v.
  - split; [by eexists|]. split; [done|]. split; [done|]. split; [done|].
    by intros (? & ? & ? & ?).
Qed.
End FailOpen.

(** ** What goes out on the wire *)

Section Wire.
Context {S : Type} `{!RedisClient S} `{!JsRuntime}.

Lemma sent_by_emit {A} (m : M S A) (w : World S) r w' x :
  m w = (r, w') → wire w' = wire w ++ x → sent_by m w = x.
Proof.
  intros E Hw. unfold sent_by. rewrite E. simpl. rewrite Hw.
  by rewrite drop_app_length.
Qed.

Lemma get_sent (w : World S) this h k :
  connected_as w this h →
  sent_by (get this k) w = [WSend h (CmdGet (getKey w k))].
Proof.
  intros Hc. unfold sent_by, get. unfold bind at 1.
  rewrite (getConnection_connected w this h Hc). unfold_M.
  destruct (redis_get h (getKey w k) (remote w)) as [[[text|]|x] s']; simpl;
    try destruct (JSON_parse text); simpl; by rewrite drop_app_length.
Qed.

Lemma del_sent (w : World S) this h k :
  connected_as w this h →
  sent_by (del this k) w = [WSend h (CmdDel (getKey w k))].
Proof.
  intros Hc. unfold sent_by, del. unfold bind at 1.
  rewrite (getConnection_connected w this h Hc). unfold_M.
  destruct (redis_del h (getKey w k) (remote w)) as [[[]|x] s']; simpl;
    by rewrite drop_app_length.
Qed.

Lemma keys_sent (w : World S) this h pattern :
  connected_as w this h →
  sent_by (keys this pattern) w = [WSend h (CmdKeys (getKey w (default "*" pattern)))].
Proof.
  intros Hc. unfold sent_by, keys. unfold bind at 1.
  rewrite (getConnection_connected w this h Hc). unfold_M.
  destruct (redis_keys h _ (remote w)) as [[l|x] s']; simpl;
    by rewrite drop_app_length.
Qed.

Lemma set_sent (w : World S) this h k v ttl :
  connected_as w this h → isNil v = false → serializable v →
  sent_by (set this k v ttl) w = [WSend h (write_of w k v ttl)].
Proof.
  intros Hc Hv [pl Hpl]. unfold sent_by, set, write_of, payload_of.
  rewrite Hv. unfold bind at 1.
  rewrite (getConnection_connected w this h Hc). unfold_M. rewrite Hpl. simpl.
  destruct ttl as [n|]; [destruct (truthy_num n)|].
  - destruct (redis_setex h _ n pl (remote w)) as [[[]|x] s']; simpl;
      by rewrite drop_app_length.
  - destruct (redis_set h _ pl (remote w)) as [[[]|x] s']; simpl;
      by rewrite drop_app_length.
  - destruct (redis_set h _ pl (remote w)) as [[[]|x] s']; simpl;
      by rewrite drop_app_length.
Qed.

(** The builder of [setBulk] queues one write per item, in order, when every
    value serialises; it touches nothing. *)
Lemma setBulk_operations_queue (w : World S) items :
  Forall (λ item, serializable (item_value item)) items →
  setBulk_operations items w =
    (Ok (map (λ item, write_of w (item_key item) (item_value item) (item_ttl item))
           items), w).
Proof.
  induction 1 as [|item items [pl Hpl] _ IH]; [done|].
  simpl. unfold bind at 1. unfold native. rewrite Hpl. simpl.
  unfold bind at 1. unfold reads. unfold bind at 1. rewrite IH.
  unfold ret, write_of, payload_of. rewrite Hpl.
  by destruct (item_ttl item) as [n|]; [destruct (truthy_num n)|].
Qed.

Lemma apply_all_length h cmds (s : S) :
  length (fst (apply_all h cmds s)) = length cmds.
Proof.
  revert s. induction cmds as [|c cmds IH]; intros s; [done|].
  simpl. destruct (pipeline_apply h c s) as [entry s1].
  specialize (IH s1). destruct (apply_all h cmds s1) as [entries s2].
  simpl in *. by rewrite IH.
Qed.

(** [executePipeline] on a connected manager, for a builder that queues
    [cmds] and touches nothing. *)
Lemma executePipeline_connected (w : World S) this h operations cmds :
  connected_as w this h →
  operations w = (Ok cmds, w) →
  executePipeline this operations w =
    match pipeline_fault h cmds (remote w) with
    | Some (x, s') =>
        (Throw (Foreign x),
         logged LError "cache.pipeline.execution_failed"
           (with_remote s' (emit (WExec h cmds) w)))
    | None =>
        (Ok (fst (apply_all h cmds (remote w))),
         logged LDebug "cache.pipeline.executed_successfully"
           (with_remote (snd (apply_all h cmds (remote w)))
              (emit (WExec h cmds) w)))
    end.
Proof.
  intros Hc Hops. unfold executePipeline. unfold bind at 1.
  rewrite (getConnection_connected w this h Hc).
  unfold bind at 1. rewrite Hops. unfold try_catch, pipeline_exec, bind.
  destruct (pipeline_fault h cmds (remote w)) as [[x s']|]; [done|].
  by destruct (apply_all h cmds (remote w)).
Qed.

(** It sends the one batch, made of the commands of the builder as they are. *)
Lemma executePipeline_sent (w : World S) this h operations cmds :
  connected_as w this h →
  operations w = (Ok cmds, w) →
  sent_by (executePipeline this operations) w = [WExec h cmds].
Proof.
  intros Hc Hops. unfold sent_by.
  rewrite (executePipeline_connected w this h operations cmds Hc Hops).
  destruct (pipeline_fault h cmds (remote w)) as [[x s']|]; simpl;
    by rewrite drop_app_length.
Qed.
End Wire.

Section Bulk.
Context {S : Type} `{!RedisClient S} `{!JsRuntime}.

(** The builder of [setBulk] changes nothing by itself, and when it does not
    throw it has queued one command per item. *)
Lemma setBulk_operations_pure (w : World S) items r w' :
  setBulk_operations items w = (r, w') →
  w' = w ∧ ∀ cmds, r = Ok cmds → length cmds = length items.
Proof.
  revert r w'. induction items as [|item items IH]; intros r w'.
  - intros [= <- <-]. split; [done|]. by intros ? [= <-].
  - simpl. unfold bind at 1. unfold native.
    destruct (JSON_stringify (item_value item)) as [pl|x]; simpl.
    + unfold bind at 1. unfold reads. unfold bind at 1.
      destruct (setBulk_operations items w) as [[cmds|e] w1] eqn:E.
      * destruct (IH _ _ eq_refl) as [-> Hlen]. unfold ret.
        intros [= <- <-]. split; [done|]. intros ? [= <-]. simpl.
        by rewrite (Hlen cmds).
      * destruct (IH _ _ eq_refl) as [-> _]. intros [= <- <-]. done.
    + intros [= <- <-]. done.
Qed.

Lemma has_error_filter_nil (results : list PipelineEntry) :
  List.filter has_error results = [] ↔ ∀ entry, entry ∈ results → fst entry = None.
Proof.
  induction results as [|[err r] results IH]; simpl.
  - split; [|done]. intros _ entry Hin. by apply elem_of_nil in Hin.
  - unfold has_error at 1. destruct err as [x|]; simpl.
    + split; [done|]. intros Hall. specialize (Hall (Some x, r)).
      discriminate Hall. by left.
    + rewrite IH. split.
      * intros Hall entry [->|Hin]%elem_of_cons; [done|]. by apply Hall.
      * intros Hall entry Hin. apply Hall. by right.
Qed.

(** C6.  On a connected manager, when the pipeline of [setBulk(items)] comes
    back with its [results]: one pair per item came back; the call fails,
    with [PartialBulkFailure] naming the number of pairs that carry an error
    out of the number of items, exactly when some pair carries an error, and
    otherwise it returns; in both cases the store is left as the pipeline left
    it, every queued command applied in order and none undone, and nothing
    but the one batch was sent.  For no items, the call returns and the store
    is as it was. *)
Theorem setBulk_partial_failure (w w1 : World S) this h items results :
  connected_as w this h →
  executePipeline this (setBulk_operations items) w = (Ok results, w1) →
  let failed := length (List.filter has_error results) in
  length results = length items ∧
  (fst (setBulk this items w) = Throw (PartialBulkFailure failed (length items)) ↔
     ∃ entry, entry ∈ results ∧ fst entry ≠ None) ∧
  ((∀ entry, entry ∈ results → fst entry = None) →
     fst (setBulk this items w) = Ok tt) ∧
  message (PartialBulkFailure failed (length items)) =
    "Failed to set " +:+ pretty failed +:+ " out of " +:+ pretty (length items)
      +:+ " items" ∧
  (∃ cmds,
     setBulk_operations items w = (Ok cmds, w) ∧
     results = fst (apply_all h cmds (remote w)) ∧
     remote (snd (setBulk this items w)) = snd (apply_all h cmds (remote w)) ∧
     sent_by (setBulk this items) w = [WExec h cmds]) ∧
  (items = [] →
     fst (setBulk this items w) = Ok tt ∧
     remote (snd (setBulk this items w)) = remote w).
Proof.
  intros Hc Hexec failed.
  destruct (setBulk_operations items w) as [r w0] eqn:Hops.
  destruct (setBulk_operations_pure _ _ _ _ Hops) as [-> Hlen].
  destruct r as [cmds|e]; cycle 1.
  { unfold executePipeline in Hexec. unfold bind at 1 in Hexec.
    rewrite (getConnection_connected w this h Hc) in Hexec.
    unfold bind in Hexec. by rewrite Hops in Hexec. }
  specialize (Hlen cmds eq_refl).
  rewrite (executePipeline_connected w this h _ cmds Hc Hops) in Hexec.
  destruct (pipeline_fault h cmds (remote w)) as [[x s']|] eqn:Hfault; [done|].
  injection Hexec as <- <-.
  assert (setBulk this items w =
          if (0 <? failed)%nat then
            (Throw (PartialBulkFailure failed (length items)),
             logged LError "cache.set_bulk.partial_failure"
               (logged LDebug "cache.pipeline.executed_successfully"
                  (with_remote (snd (apply_all h cmds (remote w)))
                     (emit (WExec h cmds) w))))
          else
            (Ok tt,
             logged LDebug "cache.set_bulk.successfully"
               (logged LDebug "cache.pipeline.executed_successfully"
                  (with_remote (snd (apply_all h cmds (remote w)))
                     (emit (WExec h cmds) w))))) as Hbulk.
  { unfold setBulk. unfold bind at 1.
    rewrite (executePipeline_connected w this h _ cmds Hc Hops), Hfault.
    fold failed. by destruct (0 <? failed)%nat. }
  assert (failed = 0%nat ↔
          ∀ entry, entry ∈ fst (apply_all h cmds (remote w)) → fst entry = None)
    as Hnone.
  { unfold failed. rewrite <- has_error_filter_nil. apply length_zero_iff_nil. }
  split; [by rewrite apply_all_length|].
  split; [|split; [|split; [done|split]]].
  - rewrite Hbulk. destruct (0 <? failed)%nat eqn:Hpos; simpl.
    + split; [intros _|done].
      apply Nat.ltb_lt in Hpos.
      destruct (List.filter has_error (fst (apply_all h cmds (remote w))))
        as [|entry l] eqn:Hf; [unfold failed in Hpos; simpl in Hpos; lia|].
      assert (In entry (List.filter has_error (fst (apply_all h cmds (remote w)))))
        as Hin by (rewrite Hf; by left).
      apply filter_In in Hin as [Hin Herr]. exists entry.
      split; [by apply list_elem_of_In|]. unfold has_error in Herr.
      by destruct (fst entry).
    + split; [done|]. intros (entry & Hin & Herr).
      apply Nat.ltb_ge in Hpos. assert (failed = 0%nat) as H0 by lia.
      exfalso. apply Herr. exact (proj1 Hnone H0 entry Hin).
  - intros Hall. rewrite Hbulk, (proj2 Hnone Hall). done.
  - exists cmds. split; [done|]. split; [done|].
    destruct (0 <? failed)%nat; (split; [by rewrite Hbulk|]);
      by eapply sent_by_emit; [exact Hbulk|].
  - intros ->. simpl in Hops. injection Hops as <-.
    rewrite Hbulk. unfold failed. simpl. done.
Qed.
End Bulk.

Section KeysAndTtl.
Context {S : Type} `{!RedisClient S} `{!JsRuntime}.

Lemma write_of_key (w : World S) k v ttl :
  command_key (write_of w k v ttl) = Some (getKey w k).
Proof.
  unfold write_of. by destruct ttl as [n|]; [destruct (truthy_num n)|].
Qed.

Lemma write_of_falsy (w : World S) k v ttl :
  ttl = None ∨ ttl = Some (Num 0) ∨ ttl = Some NaN →
  write_of w k v ttl = CmdSet (getKey w k) (payload_of v).
Proof. by intros [-> | [-> | ->]]. Qed.

Lemma write_of_truthy (w : World S) k v z :
  z ≠ 0 →
  write_of w k v (Some (Num z)) = CmdSetex (getKey w k) (Num z) (payload_of v).
Proof.
  intros Hz. unfold write_of, truthy_num.
  by destruct (Z.eqb_spec z 0).
Qed.

Lemma setBulk_sent (w : World S) this h items :
  connected_as w this h →
  Forall (λ item, serializable (item_value item)) items →
  sent_by (setBulk this items) w =
    [WExec h (map (λ item, write_of w (item_key item) (item_value item) (item_ttl item))
                items)].
Proof.
  intros Hc Hser. unfold sent_by, setBulk. unfold bind at 1.
  rewrite (executePipeline_connected w this h _ _ Hc
             (setBulk_operations_queue w items Hser)).
  destruct (pipeline_fault h _ (remote w)) as [[x s']|]; simpl.
  - by rewrite drop_app_length.
  - unfold_M. case_match; simpl; by rewrite drop_app_length.
Qed.

Lemma keyed_operations_use_getKey (w : World S) this h :
  connected_as w this h → keyed_operations_use w this (getKey w).
Proof.
  intros Hc. repeat split; intros.
  - rewrite (set_sent w this h); [|done..]. simpl. by rewrite write_of_key.
  - by rewrite (get_sent w this h).
  - by rewrite (del_sent w this h).
  - by rewrite (keys_sent w this h).
  - rewrite (setBulk_sent w this h); [|done..]. simpl. rewrite app_nil_r.
    induction items as [|item items IH]; [done|].
    simpl. rewrite write_of_key. simpl. f_equal. apply IH.
    by eapply Forall_inv_tail.
Qed.

(** C8.  When [NODE_ENV] is ["test"], every operation of a connected manager
    that takes a key or a pattern ([set], [get], [del], [keys], [setBulk])
    names on the wire the key prefixed with ["test:"], and the host handed to
    the client is ["localhost"]; otherwise the key is used as it is and the
    host is the configured one.  [executePipeline], which takes no key, sends
    the commands of its builder as they are in both modes. *)
Theorem test_mode_prefix_and_host (w : World S) this c h :
  heap w !! this = Some c → isReady c = true → redis c = Some h →
  (NODE_ENV w = Some "test" →
     keyed_operations_use w this (λ k, "test:" +:+ k) ∧
     getHost w c = "localhost" ∧
     o_host (getRedisConfig w c) = "localhost") ∧
  (NODE_ENV w ≠ Some "test" →
     keyed_operations_use w this (λ k, k) ∧
     getHost w c = host (config c) ∧
     o_host (getRedisConfig w c) = host (config c)) ∧
  (∀ operations cmds, operations w = (Ok cmds, w) →
     sent_by (executePipeline this operations) w = [WExec h cmds]).
Proof.
  intros Hthis Hready Hredis.
  assert (connected_as w this h) as Hc by by exists c.
  pose proof (keyed_operations_use_getKey w this h Hc) as Hops.
  unfold getRedisConfig, getHost. simpl.
  unfold keyed_operations_use, getKey in *. unfold test_mode in *.
  split; [|split]; [intros Henv..|].
  - rewrite bool_decide_eq_true_2 in * by done. done.
  - rewrite bool_decide_eq_false_2 in * by done. done.
  - intros operations cmds Hq. by apply (executePipeline_sent w this h).
Qed.

(** C10, as amended.  [set(k, v, ttl)] on a connected manager sends the plain
    [SET] when [ttl] is omitted, [0] or [NaN], and [SETEX] with that [ttl]
    when [ttl] is any other number, negative ones included; [setBulk] queues
    each item's write by the same rule. *)
Theorem ttl_truthiness_selects_write (w : World S) this h :
  connected_as w this h →
  (∀ k v ttl, isNil v = false → serializable v →
     ttl = None ∨ ttl = Some (Num 0) ∨ ttl = Some NaN →
     sent_by (set this k v ttl) w = [WSend h (CmdSet (getKey w k) (payload_of v))]) ∧
  (∀ k v z, isNil v = false → serializable v → z ≠ 0 →
     sent_by (set this k v (Some (Num z))) w
       = [WSend h (CmdSetex (getKey w k) (Num z) (payload_of v))]) ∧
  (∀ items, Forall (λ item, serializable (item_value item)) items →
     ∃ cmds,
       sent_by (setBulk this items) w = [WExec h cmds] ∧
       length cmds = length items ∧
       ∀ i item, items !! i = Some item →
         (item_ttl item = None ∨ item_ttl item = Some (Num 0)
            ∨ item_ttl item = Some NaN →
          cmds !! i = Some (CmdSet (getKey w (item_key item))
                              (payload_of (item_value item)))) ∧
         (∀ z, z ≠ 0 → item_ttl item = Some (Num z) →
          cmds !! i = Some (CmdSetex (getKey w (item_key item)) (Num z)
                              (payload_of (item_value item))))).
Proof.
  intros Hc. split; [|split].
  - intros k v ttl Hv Hser Httl.
    by rewrite (set_sent w this h), write_of_falsy.
  - intros k v z Hv Hser Hz.
    by rewrite (set_sent w this h), write_of_truthy.
  - intros items Hser. eexists. split; [by apply setBulk_sent|].
    split; [by rewrite length_map|].
    intros i item Hi. rewrite list_lookup_fmap, Hi. simpl. split.
    + intros Httl. by rewrite write_of_falsy.
    + intros z Hz Httl. by rewrite Httl, write_of_truthy.
Qed.
End KeysAndTtl.

(** ** Examples on the test doubles *)

Lemma connected_sample env : connected_as (Sample.connected env) 0%nat 0%nat.
Proof. eexists. repeat split; reflexivity. Qed.

(** Witness of C6: the store refuses the second of three writes; the call
    fails naming 1 out of 3, and the first and third are in the store. *)
Lemma setBulk_partial_failure_witness :
  fst (setBulk 0%nat three_items (Sample.connected None))
    = Throw (PartialBulkFailure 1 3) ∧
  message (PartialBulkFailure 1 3) = "Failed to set 1 out of 3 items" ∧
  Sample.entries (remote (snd (setBulk 0%nat three_items (Sample.connected None))))
    = [("c", ("3", Some 60)); ("a", ("1", None))].
Proof.
  destruct (executePipeline 0%nat (setBulk_operations three_items)
              (Sample.connected None)) as [[results|e] w1] eqn:Hexec;
    [|by vm_compute in Hexec].
  destruct (setBulk_partial_failure (Sample.connected None) w1 0%nat 0%nat
              three_items results (connected_sample None) Hexec)
    as (_ & Hfail & _ & Hmsg & (cmds & Hcmds & _ & Hstore & _) & _).
  vm_compute in Hexec. injection Hexec as <- <-.
  split; [|split].
  - apply Hfail. exists (Some Sample.wrong_ttl, RNull). split; [|done].
    apply list_elem_of_In. vm_compute. tauto.
  - exact Hmsg.
  - rewrite Hstore. injection Hcmds as <-. reflexivity.
Defined.

(** Witness of C7: before any instance exists the item counts as new; once
    its key is in the store it does not. *)
Lemma isNewItem_fail_open_witness :
  fst (isNewItem {| namespace := "ns"; defaultTTL := None |} "k" (Sample.boot None))
    = Ok true ∧
  fst (isNewItem {| namespace := "ns"; defaultTTL := None |} "k"
         (with_remote (Sample.put_entry "ns:k" "1" None Sample.empty_store)
            (Sample.connected None)))
    = Ok false.
Proof.
  split.
  - destruct (isNewItem_fail_open {| namespace := "ns"; defaultTTL := None |}
                "k" (Sample.boot None)) as (_ & _ & Hthrow & _).
    eapply Hthrow. vm_compute. reflexivity.
  - destruct (isNewItem_fail_open {| namespace := "ns"; defaultTTL := None |} "k"
                (with_remote (Sample.put_entry "ns:k" "1" None Sample.empty_store)
                   (Sample.connected None))) as (_ & _ & _ & Hfalse).
    apply Hfalse. eexists _, _. split; [vm_compute; reflexivity|done].
Defined.

(** Witness of C8: in test mode the key ["foo"] goes out, and is stored, as
    ["test:foo"], and the client was made for ["localhost"]; outside test
    mode the key goes out as it is. *)
Lemma test_mode_prefix_and_host_witness :
  keys_on_wire
    (sent_by (set 0%nat "foo" (Data (JNumber (Num 1))) None)
       (Sample.connected (Some "test"))) = ["test:foo"] ∧
  Sample.entries
    (remote (snd (set 0%nat "foo" (Data (JNumber (Num 1))) None
                    (Sample.connected (Some "test")))))
    = [("test:foo", ("1", None))] ∧
  (o_host ∘ cl_options) <$> clients (Sample.connected (Some "test")) !! 0%nat
    = Some "localhost" ∧
  keys_on_wire
    (sent_by (set 0%nat "foo" (Data (JNumber (Num 1))) None)
       (Sample.connected None)) = ["foo"].
Proof.
  destruct (connected_sample (Some "test")) as (c1 & Hc1 & Hr1 & Hh1).
  destruct (connected_sample None) as (c2 & Hc2 & Hr2 & Hh2).
  destruct (test_mode_prefix_and_host _ _ _ _ Hc1 Hr1 Hh1) as (Htest & _ & _).
  destruct (test_mode_prefix_and_host _ _ _ _ Hc2 Hr2 Hh2) as (_ & Hprod & _).
  destruct (Htest eq_refl) as ((Hset1 & _) & _).
  destruct Hprod as ((Hset2 & _) & _); [done|].
  split; [|split; [|split]].
  - apply Hset1; [done|by eexists].
  - vm_compute. reflexivity.
  - vm_compute. reflexivity.
  - apply Hset2; [done|by eexists].
Defined.

(** Witness of C9: the first call with a configuration makes the instance,
    the second returns it, whatever it is passed. *)
Lemma getInstance_singleton_witness :
  getInstance (Some Sample.cfg) (Sample.fresh None) = (Ok 0%nat, Sample.fresh None) ∧
  getInstance None (Sample.boot None) = (Throw NotInitialized, Sample.boot None).
Proof.
  destruct (getInstance_singleton (Sample.fresh None)) as (_ & Hsome & _).
  destruct (getInstance_singleton (Sample.boot None)) as (Hnone & _).
  split.
  - apply Hsome. vm_compute. reflexivity.
  - apply Hnone. reflexivity.
Defined.

(** Witness of C10 as amended: a [ttl] of [0] sends the plain [SET], and a
    [ttl] of [60] sends [SETEX]. *)
Lemma ttl_truthiness_selects_write_witness :
  sent_by (set 0%nat "k" (Data (JNumber (Num 7))) (Some (Num 0))) (Sample.connected None)
    = [WSend 0%nat (CmdSet "k" (Some "7"))] ∧
  sent_by (set 0%nat "k" (Data (JNumber (Num 7))) (Some (Num 60))) (Sample.connected None)
    = [WSend 0%nat (CmdSetex "k" (Num 60) (Some "7"))].
Proof.
  destruct (ttl_truthiness_selects_write (Sample.connected None) 0%nat 0%nat
              (connected_sample None)) as (Hset & Hsetex & _).
  split.
  - apply (Hset "k" (Data (JNumber (Num 7))) (Some (Num 0)));
      [done|by eexists|by right; left].
  - apply (Hsetex "k" (Data (JNumber (Num 7))) 60); [done|by eexists|done].
Defined.

(** Counterexample to C10 as stated: a [ttl] of [-1] is not strictly
    positive, and [set] sends [SETEX] with it. *)
Lemma negative_ttl_uses_setex :
  ¬ (0 < -1) ∧
  sent_by (set 0%nat "k" (Data (JNumber (Num 7))) (Some (Num (-1))))
    (Sample.connected None)
  = [WSend 0%nat (CmdSetex "k" (Num (-1)) (Some "7"))].
Proof. split; [lia | vm_compute; reflexivity]. Qed.

(** ** The connection attempt *)

Section SingleFlight.
Context {S : Type} `{!RedisClient S} `{!JsRuntime}.

(** The first call: it makes the promise [p], runs the executor, records the
    promise and waits. *)
Lemma connect_starts (w : World S) this c :
  heap w !! this = Some c → isReady c = false → connectPromise c = None →
  connect this w =
    returns (Awaiting this (length (promises w)))
      (update this (set_connectPromise (Some (length (promises w))))
         (executor this c (length (promises w)) w)).
Proof. intros Hc Hr Hp. unfold connect. by rewrite Hc, Hr, Hp. Qed.


(** The listeners of a client on which [setupListeners] has not run. *)
Lemma fire_ready_fresh (w : World S) h cl c r :
  clients w !! h = Some cl → cl_steady cl = 0%nat →
  heap w !! cl_owner cl = Some c → redis c = Some r →
  fire h EvReady w =
    resolve (cl_attempt cl)
      (setupListeners r (update (cl_owner cl) (set_isReady true) (clearTimeout h w))).
Proof.
  intros Hcl Hsteady Hc Hr. unfold fire. rewrite Hcl, Hsteady.
  unfold attempt_listener. unfold_M. simpl.
  by rewrite list_lookup_alter_eq, Hc; simpl; rewrite Hr.
Qed.

Lemma fire_error_fresh (w : World S) h cl x :
  clients w !! h = Some cl → cl_steady cl = 0%nat →
  fire h (EvError x) w =
    reject (cl_attempt cl) (Foreign x)
      (update (cl_owner cl) (set_isReady false) (clearTimeout h w)).
Proof. intros Hcl Hsteady. unfold fire. by rewrite Hcl, Hsteady. Qed.

Lemma timeout_armed (w : World S) h cl :
  clients w !! h = Some cl → cl_timer cl = Armed →
  timeout h w =
    let w' := reject (cl_attempt cl) ConnectionTimeout
                (with_clients (alter (set_timer Fired) h) w) in
    match heap w !! cl_owner cl ≫= redis with
    | Some r => emit (WDisconnect r) w'
    | None => w'
    end.
Proof. intros Hcl Ht. unfold timeout. by rewrite Hcl, Ht. Qed.

(** Draining the microtask queue touches the recorded promise of the waiting
    calls and the calls themselves, nothing else. *)
Lemma finally_frame (w0 : World S) cs acc :
  let w' := foldl (λ acc c, finally w0 c acc) acc cs in
  calls w' = calls acc ∧ wire w' = wire acc ∧ promises w' = promises acc ∧
  clients w' = clients acc ∧ remote w' = remote acc.
Proof.
  revert acc. induction cs as [|call cs IH]; intros acc; [done|].
  simpl. destruct (IH (finally w0 call acc)) as (-> & -> & -> & -> & ->).
  unfold finally. destruct call as [| |this p]; try done.
  by destruct (truthy (settled w0 p)).
Qed.

Lemma microtasks_calls (w : World S) :
  calls (microtasks w) = map (resume w) (calls w).
Proof.
  unfold microtasks. simpl.
  by destruct (finally_frame w (calls w) w) as (-> & _).
Qed.

Lemma microtasks_wire (w : World S) : wire (microtasks w) = wire w.
Proof.
  unfold microtasks. simpl.
  by destruct (finally_frame w (calls w) w) as (_ & -> & _).
Qed.



Lemma calls_since_app (w0 w : World S) old new :
  calls w = old ++ new → length old = length (calls w0) →
  calls_since w0 w = new.
Proof. intros E Hl. unfold calls_since. by rewrite E, <- Hl, drop_app_length. Qed.

Lemma calls_since_drain (w0 w : World S) new :
  calls w = calls w0 ++ new →
  calls_since w0 (microtasks w) = map (resume w) new.
Proof.
  intros E. unfold calls_since. rewrite microtasks_calls, E, map_app.
  rewrite <- (length_map (resume w) (calls w0)). apply drop_app_length.
Qed.

End SingleFlight.
Section SettlingStep.
Context {S : Type} `{!RedisClient S} `{!JsRuntime}.

(** One of the three events on a client whose attempt is pending: the promise
    of the attempt settles accordingly; no call is made and no client; the
    handle and the recorded promise of the manager stay; and only the timer
    puts something on the wire, the [disconnect()] of the handle. *)
Lemma attempt_settles (w : World S) h cl c ev r :
  clients w !! h = Some cl → cl_steady cl = 0%nat → cl_timer cl = Armed →
  heap w !! cl_owner cl = Some c → is_Some (redis c) →
  promises w !! cl_attempt cl = Some Pending →
  settles h ev r →
  calls (step w ev) = calls w ∧
  settled (step w ev) (cl_attempt cl) = Some r ∧
  attempts (step w ev) = attempts w ∧
  (∃ c', heap (step w ev) !! cl_owner cl = Some c' ∧
         redis c' = redis c ∧ connectPromise c' = connectPromise c) ∧
  wire (step w ev) =
    wire w ++ match ev with
              | TimerFires _ => from_option (λ r, [WDisconnect r]) [] (redis c)
              | _ => []
              end.
Proof.
  intros Hcl Hsteady Htimer Hc [r' Hr'] Hp Hev.
  destruct Hev as [|x|]; simpl.
  - rewrite (fire_ready_fresh w h cl c r') by done.
    unfold settled. simpl. rewrite !list_lookup_alter_eq, Hp, Hc, app_nil_r.
    repeat split; try done. by eexists.
  - rewrite (fire_error_fresh w h cl x) by done.
    unfold settled. simpl. rewrite !list_lookup_alter_eq, Hp, Hc, app_nil_r.
    repeat split; try done. by eexists.
  - rewrite (timeout_armed w h cl) by done. rewrite Hc. simpl. rewrite Hr'.
    unfold settled, attempts. simpl. rewrite list_lookup_alter_eq, Hp, Hc.
    rewrite List.filter_app. simpl. rewrite app_nil_r.
    repeat split; try done. by eexists.
Qed.

End SettlingStep.

Section FailedAttempt.
Context {S : Type} `{!RedisClient S} `{!JsRuntime}.

(** One [finally] keeps every object as it is, but for the recorded promise,
    which it may clear. *)
Lemma finally_object (w0 : World S) call acc this c :
  heap acc !! this = Some c →
  ∃ c', heap (finally w0 call acc) !! this = Some c' ∧
        redis c' = redis c ∧ isReady c' = isReady c ∧
        (connectPromise c' = connectPromise c ∨ connectPromise c' = None).
Proof.
  intros Hc. unfold finally.
  destruct call as [r|q|this' p]; [by eauto 10..|].
  destruct (truthy (settled w0 p)); [|by eauto 10].
  simpl. rewrite list_lookup_alter. destruct (decide (this' = this)) as [->|]; [|by eauto 10].
  rewrite Hc. simpl. eauto 10.
Qed.

Lemma finally_objects (w0 : World S) cs acc this c :
  heap acc !! this = Some c →
  ∃ c', heap (foldl (λ acc c, finally w0 c acc) acc cs) !! this = Some c' ∧
        redis c' = redis c ∧ isReady c' = isReady c ∧
        (connectPromise c' = connectPromise c ∨ connectPromise c' = None).
Proof.
  revert acc c. induction cs as [|call cs IH]; intros acc c Hc; [by eauto 10|].
  simpl. destruct (finally_object w0 call acc this c Hc) as (c1 & Hc1 & Hr1 & Hi1 & Hp1).
  destruct (IH _ _ Hc1) as (c2 & Hc2 & Hr2 & Hi2 & Hp2).
  exists c2. split; [done|]. split; [congruence|]. split; [congruence|].
  destruct Hp1 as [Hp1|Hp1], Hp2 as [Hp2|Hp2]; (by right) || (left; congruence) || (right; congruence).
Qed.

(** The [finally] of a call that waited on a settled promise clears the
    recorded promise of its object. *)
Lemma finally_clears (w0 : World S) cs acc this p c :
  heap acc !! this = Some c → Awaiting this p ∈ cs → is_Some (settled w0 p) →
  ∃ c', heap (foldl (λ acc c, finally w0 c acc) acc cs) !! this = Some c' ∧
        redis c' = redis c ∧ isReady c' = isReady c ∧ connectPromise c' = None.
Proof.
  intros Hc Hin [r Hp]. revert acc c Hc.
  induction cs as [|call cs IH]; intros acc c Hc; [by apply elem_of_nil in Hin|].
  apply elem_of_cons in Hin as [<-|Hin]; simpl.
  - assert (heap (finally w0 (Awaiting this p) acc) !! this
            = Some (set_connectPromise None c)) as Hc1.
    { unfold finally. rewrite Hp. simpl. by rewrite list_lookup_alter_eq, Hc. }
    destruct (finally_objects w0 cs _ this _ Hc1) as (c2 & Hc2 & Hr2 & Hi2 & Hp2).
    exists c2. split; [done|]. split; [done|]. split; [done|].
    by destruct Hp2 as [Hp2|Hp2].
  - destruct (finally_object w0 call acc this c Hc) as (c1 & Hc1 & Hr1 & Hi1 & _).
    destruct (IH Hin _ _ Hc1) as (c2 & Hc2 & Hr2 & Hi2 & Hp2).
    exists c2. split; [done|]. split; [congruence|]. split; [congruence|done].
Qed.

Lemma microtasks_heap (w : World S) :
  heap (microtasks w) = heap (foldl (λ acc c, finally w c acc) w (calls w)).
Proof. done. Qed.

Lemma disconnects_emit_new (w : World S) h o :
  disconnects h (emit (WNew o) w) = disconnects h w.
Proof.
  unfold disconnects. simpl. rewrite List.filter_app. simpl. by rewrite app_nil_r.
Qed.

(** C3: where the code departs from it.  An attempt that fails by the [error]
    event of its client rejects the call and clears the recorded promise, as
    an attempt that fails by the timer does; but only the timer calls
    [disconnect()].  After the [error] event the client is still the handle
    of the manager and [disconnect()] has not run on it. *)
Theorem error_event_leaves_client_open (w : World S) this c x :
  heap w !! this = Some c → isReady c = false → connectPromise c = None →
  redis_new (getRedisConfig w c) = None →
  let h := length (clients w) in
  let on_error := run [CallConnect this; Emit h (EvError x); Microtasks] w in
  let on_timeout := run [CallConnect this; TimerFires h; Microtasks] w in
  (calls_since w on_error = [Settled (Throw (Foreign x))] ∧
   (∃ c', heap on_error !! this = Some c' ∧
          connectPromise c' = None ∧ redis c' = Some h) ∧
   disconnects h on_error = disconnects h w) ∧
  (calls_since w on_timeout = [Settled (Throw ConnectionTimeout)] ∧
   (∃ c', heap on_timeout !! this = Some c' ∧
          connectPromise c' = None ∧ redis c' = Some h) ∧
   disconnects h on_timeout = Datatypes.S (disconnects h w)).
Proof.
  intros Hc Hr Hp Hnew h on_error on_timeout.
  set (p := length (promises w)).
  set (w1 := connect this w).
  assert (w1 = with_calls (λ cs, cs ++ [Awaiting this p])
                 (update this (set_connectPromise (Some p))
                    (update this (set_redis (Some h))
                       (with_clients (λ cs, cs ++ [new_Client (getRedisConfig w c) this p])
                          (with_promises (λ ps, ps ++ [Pending])
                             (emit (WNew (getRedisConfig w c)) w)))))) as Hw1.
  { unfold w1. rewrite (connect_starts w this c) by done.
    unfold executor. by rewrite Hnew. }
  assert (clients w1 !! h = Some (new_Client (getRedisConfig w c) this p)) as Hcl.
  { rewrite Hw1. simpl. unfold h. by rewrite lookup_app_r, Nat.sub_diag. }
  assert (heap w1 !! this
          = Some (set_connectPromise (Some p) (set_redis (Some h) c))) as Hc1.
  { rewrite Hw1. simpl. by rewrite !list_lookup_alter_eq, Hc. }
  assert (promises w1 !! p = Some Pending) as Hp1.
  { rewrite Hw1. simpl. unfold p. by rewrite lookup_app_r, Nat.sub_diag. }
  assert (calls w1 = calls w ++ [Awaiting this p]) as Hcalls1 by by rewrite Hw1.
  assert (disconnects h w1 = disconnects h w) as Hd1.
  { rewrite Hw1. apply disconnects_emit_new. }
  assert (∀ ev r, settles h ev r →
            calls_since w (run [CallConnect this; ev; Microtasks] w)
              = [Settled r] ∧
            (∃ c', heap (run [CallConnect this; ev; Microtasks] w) !! this = Some c' ∧
                   connectPromise c' = None ∧ redis c' = Some h) ∧
            wire (run [CallConnect this; ev; Microtasks] w) = wire (step w1 ev))
    as Hboth.
  { intros ev r Hev.
    change (run [CallConnect this; ev; Microtasks] w) with (microtasks (step w1 ev)).
    destruct (attempt_settles w1 h _ _ ev r Hcl eq_refl eq_refl Hc1
                ltac:(by eexists) Hp1 Hev)
      as (Hcalls & Hsettled & _ & (c2 & Hc2 & Hr2 & _) & _).
    split; [|split].
    - erewrite calls_since_drain by (rewrite Hcalls; exact Hcalls1).
      simpl. simpl in Hsettled. by rewrite Hsettled.
    - rewrite microtasks_heap.
      destruct (finally_clears (step w1 ev) (calls (step w1 ev)) (step w1 ev)
                  this p c2 Hc2) as (c3 & Hc3 & Hr3 & _ & Hp3).
      + rewrite Hcalls, Hcalls1. apply elem_of_app. right. by left.
      + by eexists.
      + exists c3. split; [done|]. split; [done|]. by rewrite Hr3, Hr2.
    - apply microtasks_wire. }
  destruct (Hboth _ _ (settles_error h x)) as (Hcalls_e & Hheap_e & Hwire_e).
  destruct (Hboth _ _ (settles_timeout h)) as (Hcalls_t & Hheap_t & Hwire_t).
  subst on_error on_timeout.
  split; (split; [done|split; [done|]]).
  - unfold disconnects. rewrite Hwire_e. simpl.
    rewrite (fire_error_fresh w1 h _ x Hcl eq_refl). simpl. exact Hd1.
  - unfold disconnects. rewrite Hwire_t. simpl.
    rewrite (timeout_armed w1 h _ Hcl eq_refl). simpl. rewrite Hc1. simpl.
    rewrite List.filter_app, length_app. simpl.
    rewrite bool_decide_eq_true_2 by done. simpl.
    unfold disconnects in Hd1. rewrite Hd1. lia.
Qed.
End FailedAttempt.

(** Witness of C3's theorem: the client refuses the connection.  The call is
    rejected, [disconnect()] has not run on the client, and the next
    [connect()] makes a second client beside it; had the timer fired
    instead, [disconnect()] would have run. *)
Lemma error_event_leaves_client_open_witness :
  let w := Sample.fresh None in
  let x := mkExn "Error" "connect ECONNREFUSED" in
  let on_error := run [CallConnect 0%nat; Emit 0%nat (EvError x); Microtasks] w in
  let on_timeout := run [CallConnect 0%nat; TimerFires 0%nat; Microtasks] w in
  calls_since w on_error = [Settled (Throw (Foreign x))] ∧
  disconnects 0%nat on_error = 0%nat ∧
  disconnects 0%nat on_timeout = 1%nat ∧
  attempts (connect 0%nat on_error) = 2%nat ∧
  disconnects 0%nat (connect 0%nat on_error) = 0%nat.
Proof.
  intros w x on_error on_timeout.
  destruct (error_event_leaves_client_open w 0%nat (new_Cache Sample.cfg) x)
    as ((Hcall & _ & Hopen) & (_ & _ & Hclosed)); [done..|].
  split; [exact Hcall|]. split; [exact Hopen|]. split; [exact Hclosed|].
  split; vm_compute; reflexivity.
Defined.

(** * Further properties of the code *)

Section GateAndPipelines.
Context {S : Type} `{!RedisClient S} `{!JsRuntime}.

(** X1.  [isConnected()] tells what the gate will do: it is true exactly when
    [getConnection()] returns the handle, and false exactly when it throws
    [NotConnected]. *)
Theorem isConnected_iff_gate (w : World S) this c :
  heap w !! this = Some c →
  (isConnected w this = true ↔ ∃ h, getConnection this w = (Ok h, w)) ∧
  (isConnected w this = false ↔ getConnection this w = (Throw NotConnected, w)).
Proof.
  intros Hc. unfold isConnected, getConnection. unfold_M. rewrite Hc.
  destruct (isReady c), (redis c) as [h|]; simpl; split; split;
    try done; try (by eexists); by intros [? ?].
Qed.

(** The builder of [setBulk] throws only what [JSON.stringify] threw. *)
Lemma setBulk_operations_throws (w : World S) items e w' :
  setBulk_operations items w = (Throw e, w') →
  w' = w ∧ ∃ item x, item ∈ items ∧ JSON_stringify (item_value item) = Failed x
                     ∧ e = Foreign x.
Proof.
  revert e w'. induction items as [|item items IH]; intros e w'; [done|].
  simpl. unfold bind at 1. unfold native.
  destruct (JSON_stringify (item_value item)) as [pl|x] eqn:Hs; simpl.
  - unfold bind at 1. unfold reads. unfold bind at 1.
    destruct (setBulk_operations items w) as [[cmds|e'] w1] eqn:E; [done|].
    intros [= <- <-]. destruct (IH _ _ eq_refl) as (-> & it & x & Hin & Hx & ->).
    split; [done|]. exists it, x. split; [by right|done].
  - intros [= <- <-]. split; [done|]. exists item, x. split; [by left|done].
Qed.

(** [executePipeline] on a connected manager, whatever the builder does. *)
Lemma executePipeline_cases (w : World S) this h operations :
  connected_as w this h →
  executePipeline this operations w =
    match operations w with
    | (Ok cmds, w') =>
        match pipeline_fault h cmds (remote w') with
        | Some (x, s') =>
            (Throw (Foreign x),
             logged LError "cache.pipeline.execution_failed"
               (with_remote s' (emit (WExec h cmds) w')))
        | None =>
            (Ok (fst (apply_all h cmds (remote w'))),
             logged LDebug "cache.pipeline.executed_successfully"
               (with_remote (snd (apply_all h cmds (remote w')))
                  (emit (WExec h cmds) w')))
        end
    | (Throw e', w') => (Throw e', w')
    end.
Proof.
  intros Hc. unfold executePipeline. unfold bind at 1.
  rewrite (getConnection_connected w this h Hc). unfold bind at 1.
  destruct (operations w) as [[cmds|e'] w']; [|done].
  unfold try_catch, pipeline_exec, bind.
  destruct (pipeline_fault h cmds (remote w')) as [[x s']|]; [done|].
  by destruct (apply_all h cmds (remote w')).
Qed.

(** X2.  [executePipeline] on a connected manager throws in two cases only:
    the builder threw, and then nothing was sent or logged; or the round trip
    failed as a whole, and then its exception is rethrown.  An error of a
    single command is never thrown: it comes back in that command's pair. *)
Theorem executePipeline_throws_only (w : World S) this h operations e :
  connected_as w this h →
  fst (executePipeline this operations w) = Throw e →
  (∃ w', operations w = (Throw e, w') ∧
         executePipeline this operations w = (Throw e, w')) ∨
  (∃ cmds w' x s', operations w = (Ok cmds, w') ∧
         pipeline_fault h cmds (remote w') = Some (x, s') ∧ e = Foreign x ∧
         log (snd (executePipeline this operations w))
           = log w' ++ [(LError, "cache.pipeline.execution_failed")]).
Proof.
  intros Hc. rewrite (executePipeline_cases w this h operations Hc).
  destruct (operations w) as [[cmds|e'] w'].
  - destruct (pipeline_fault h cmds (remote w')) as [[x s']|] eqn:Hf; [|done].
    simpl. intros [= <-]. right. by exists cmds, w', x, s'.
  - simpl. intros [= ->]. left. by exists w'.
Qed.

(** X3.  [setBulk] has no null guard and serialises before it sends.  It
    never throws [InvalidValue]; on a connected manager, when every value
    serialises, all items are queued, [null] and [undefined] included; and
    when some value does not serialise, the call throws what
    [JSON.stringify] threw and nothing at all is sent, logged or changed. *)
Theorem setBulk_serialises_first (w : World S) this h items :
  connected_as w this h →
  fst (setBulk this items w) ≠ Throw InvalidValue ∧
  (Forall (λ item, serializable (item_value item)) items →
     sent_by (setBulk this items) w =
       [WExec h (map (λ item, write_of w (item_key item) (item_value item)
                                (item_ttl item)) items)]) ∧
  (Exists (λ item, ∃ x, JSON_stringify (item_value item) = Failed x) items →
     ∃ x, setBulk this items w = (Throw (Foreign x), w)).
Proof.
  intros Hc. split; [|split].
  - unfold setBulk. unfold bind at 1.
    rewrite (executePipeline_cases w this h _ Hc).
    destruct (setBulk_operations items w) as [[cmds|e] w'] eqn:Hops.
    + destruct (pipeline_fault h cmds (remote w')) as [[x s']|]; [done|].
      by destruct (0 <? _)%nat.
    + simpl. intros [= ->].
      by destruct (setBulk_operations_throws _ _ _ _ Hops) as (_ & ? & ? & _ & _ & ?).
  - by apply setBulk_sent.
  - intros Hex.
    destruct (setBulk_operations items w) as [[cmds|e] w'] eqn:Hops.
    + exfalso. apply Exists_exists in Hex as (item & Hin & x & Hx).
      revert cmds w' Hops.
      induction items as [|it items IH]; intros cmds w' Hops;
        [by apply elem_of_nil in Hin|].
      simpl in Hops. unfold bind at 1 in Hops. unfold native in Hops.
      apply elem_of_cons in Hin as [<-|Hin].
      * by rewrite Hx in Hops.
      * destruct (JSON_stringify (item_value it)); [|done]. simpl in Hops.
        unfold bind at 1 in Hops. unfold reads in Hops. unfold bind at 1 in Hops.
        destruct (setBulk_operations items w) as [[cmds'|?] w1] eqn:E; [|done].
        by eapply IH.
    + destruct (setBulk_operations_throws _ _ _ _ Hops) as (-> & _ & x & _ & _ & ->).
      exists x. unfold setBulk. unfold bind at 1.
      by rewrite (executePipeline_cases w this h _ Hc), Hops.
Qed.
End GateAndPipelines.

Section RoundTrip.
Context {S : Type} `{!RedisClient S} `{!JsRuntime}.

(** X4.  Round trip.  On a connected manager, if [JSON.parse] gives back [j]
    from the text that [JSON.stringify] made of it, if the write of [set]
    resolves and the client's [get] of the same key then resolves to the text
    written, then [set(k, j, ttl)] followed by [get(k)] returns [j]: both
    use the same physical key and hand the text on untouched. *)
Theorem set_get_round_trip (w : World S) this h k j ttl text s1 s2 :
  connected_as w this h → j ≠ JNull →
  JSON_stringify (Data j) = Done (Some text) → JSON_parse text = Some j →
  client_write h (getKey w k) ttl (Some text) (remote w) = (Done tt, s1) →
  redis_get h (getKey w k) s1 = (Done (Some text), s2) →
  fst ((exec set this k (Data j) ttl in get this k) w) = Ok (Data j).
Proof.
  intros Hc Hj Hs Hp Hw Hg.
  assert (isNil (Data j) = false) as Hnil by by destruct j.
  assert (∃ w1, set this k (Data j) ttl w = (Ok tt, w1) ∧ heap w1 = heap w ∧
                NODE_ENV w1 = NODE_ENV w ∧ remote w1 = s1) as (w1 & Hset & Hh & He & Hr).
  { unfold set. rewrite Hnil. unfold bind at 1.
    rewrite (getConnection_connected w this h Hc). unfold_M. rewrite Hs. simpl.
    unfold client_write in Hw.
    destruct ttl as [n|]; [destruct (truthy_num n)|]; rewrite Hw; simpl;
      by eexists. }
  unfold bind at 1. rewrite Hset.
  assert (connected_as w1 this h) as Hc1.
  { destruct Hc as (c & ? & ? & ?). exists c. by rewrite Hh. }
  assert (getKey w1 k = getKey w k) as Hk by (unfold getKey, test_mode; by rewrite He).
  unfold get. unfold bind at 1.
  rewrite (getConnection_connected w1 this h Hc1). unfold_M.
  rewrite Hk, Hr, Hg. simpl. by rewrite Hp.
Qed.
End RoundTrip.

(** Witness of X4: the number 7, kept for a minute. *)
Lemma set_get_round_trip_witness :
  fst ((exec set 0%nat "k" (Data (JNumber (Num 7))) (Some (Num 60)) in
        get 0%nat "k") (Sample.connected None))
  = Ok (Data (JNumber (Num 7))).
Proof.
  eapply (set_get_round_trip (Sample.connected None) 0%nat 0%nat "k"
            (JNumber (Num 7)) (Some (Num 60)) "7");
    [apply connected_sample|done|vm_compute; reflexivity..].
Defined.

Section Store.
Context {S : Type} `{!RedisClient S} `{!JsRuntime}.

(** With an instance, [cacheInstance()] returns it and changes nothing. *)
Lemma cacheInstance_existing (w : World S) this cfg :
  instance w = Some this → cacheInstance cfg w = (Ok this, w).
Proof.
  intros Hi. unfold cacheInstance, getInstance. unfold_M. rewrite Hi. simpl.
  destruct cfg; simpl; rewrite Hi; by destruct w.
Qed.

(** X5.  [saveItem] fails closed.  With [write] the call
    [cacheInstance().set(namespace + ":" + key, value, ttl)] that it makes:
    when the write returns, [saveItem] returns; when the write throws,
    whatever the error, [saveItem] throws [SaveFailed], whose message is
    ["Failed to save item: "] followed by the message of the cause.  It
    throws nothing else. *)
Theorem saveItem_fails_closed (options : CacheStoreOptions) key value ttl
    (w : World S) :
  let write : M S unit :=
    let* cache := cacheInstance None in
    set cache (namespace options +:+ ":" +:+ key) (Data (JString value))
      (Some (default (store_defaultTTL options) ttl)) in
  (∀ w', write w = (Ok tt, w') → fst (saveItem options key value ttl w) = Ok tt) ∧
  (∀ e w', write w = (Throw e, w') →
     fst (saveItem options key value ttl w) = Throw (SaveFailed (message e)) ∧
     message (SaveFailed (message e)) = "Failed to save item: " +:+ message e) ∧
  (∀ e, fst (saveItem options key value ttl w) = Throw e →
     ∃ cause w', write w = (Throw cause, w') ∧ e = SaveFailed (message cause)).
Proof.
  intros write.
  assert (saveItem options key value ttl w =
          match write w with
          | (Ok _, w') =>
              (Ok tt, logged LInfo (storeName options +:+ ".save_item.success") w')
          | (Throw e, w') =>
              (Throw (SaveFailed (message e)),
               logged LError (storeName options +:+ ".save_item.error") w')
          end) as ->.
  { unfold saveItem, write, try_catch, bind.
    destruct (cacheInstance None w) as [[r|e] w1]; [|done].
    by destruct (set r _ _ _ w1) as [[[]|e] w2]. }
  destruct (write w) as [[[]|e] w1]; simpl.
  - split; [done|]. split; [done|]. done.
  - split; [done|]. split; [by intros ? ? [= <- <-]|].
    intros ? [= <-]. by exists e, w1.
Qed.

(** X6.  What [saveItem] writes.  With the singleton connected, it sends one
    write on the key [namespace + ":" + key] (prefixed in test mode), with
    the [ttl] passed or, when none is passed, the default of the store:
    [defaultTTL] if configured, 86400 seconds otherwise.  So an item saved
    with no [ttl] expires after a day, and a [ttl] of [0] is written with no
    expiry at all. *)
Theorem saveItem_write (options : CacheStoreOptions) key value ttl
    (w : World S) this h :
  instance w = Some this → connected_as w this h →
  serializable (Data (JString value)) →
  let fullKey := getKey w (namespace options +:+ ":" +:+ key) in
  let text := payload_of (Data (JString value)) in
  sent_by (saveItem options key value ttl) w =
    [WSend h (write_of w (namespace options +:+ ":" +:+ key)
                (Data (JString value))
                (Some (default (default (Num 86400) (defaultTTL options)) ttl)))] ∧
  (ttl = None → defaultTTL options = None →
     sent_by (saveItem options key value ttl) w
       = [WSend h (CmdSetex fullKey (Num 86400) text)]) ∧
  (ttl = Some (Num 0) →
     sent_by (saveItem options key value ttl) w = [WSend h (CmdSet fullKey text)]).
Proof.
  intros Hi Hc Hser fullKey text.
  assert (sent_by (saveItem options key value ttl) w =
          sent_by (set this (namespace options +:+ ":" +:+ key)
                     (Data (JString value))
                     (Some (default (store_defaultTTL options) ttl))) w) as ->.
  { unfold sent_by, saveItem, try_catch. unfold bind at 1.
    rewrite (cacheInstance_existing w this None Hi). unfold bind.
    by destruct (set this _ _ _ w) as [[[]|e] w2]. }
  rewrite (set_sent w this h) by done. unfold store_defaultTTL.
  split; [done|]. split.
  - intros -> ->. reflexivity.
  - intros ->. reflexivity.
Qed.
End Store.

(** Witness of X5: with no instance the cause is [NotInitialized]; with the
    singleton connected the item is saved. *)
Lemma saveItem_fails_closed_witness :
  fst (saveItem {| namespace := "ns"; defaultTTL := None |} "k" "v" None
         (Sample.boot None))
    = Throw (SaveFailed (message NotInitialized)) ∧
  fst (saveItem {| namespace := "ns"; defaultTTL := None |} "k" "v" None
         (Sample.connected None)) = Ok tt.
Proof.
  split.
  - destruct (saveItem_fails_closed {| namespace := "ns"; defaultTTL := None |}
                "k" "v" None (Sample.boot None)) as (_ & Hthrow & _).
    eapply Hthrow. vm_compute. reflexivity.
  - destruct (saveItem_fails_closed {| namespace := "ns"; defaultTTL := None |}
                "k" "v" None (Sample.connected None)) as (Hok & _).
    eapply Hok. vm_compute. reflexivity.
Defined.

(** Witness of X6: a store with no default of its own. *)
Lemma saveItem_write_witness :
  sent_by (saveItem {| namespace := "ns"; defaultTTL := None |} "k" "v" None)
    (Sample.connected None)
  = [WSend 0%nat (CmdSetex "ns:k" (Num 86400)
                    (Some (Sample.quote +:+ "v" +:+ Sample.quote)))].
Proof.
  destruct (saveItem_write {| namespace := "ns"; defaultTTL := None |} "k" "v" None
              (Sample.connected None) 0%nat 0%nat eq_refl (connected_sample None))
    as (_ & Hday & _); [by eexists|].
  by apply Hday.
Defined.

Section Keys.
Context {S : Type} `{!RedisClient S} `{!JsRuntime}.

Lemma append_inj_l (p a b : string) : p +:+ a = p +:+ b → a = b.
Proof. induction p as [|c p IH]; simpl; [done|]. intros [= ?]. by apply IH. Qed.

Lemma length_append (a b : string) :
  String.length (a +:+ b) = (String.length a + String.length b)%nat.
Proof. induction a as [|c a IH]; [done|]. simpl. by rewrite IH. Qed.

Lemma strip_prefix_append (p s : string) : strip_prefix p (p +:+ s) = Some s.
Proof.
  induction p as [|c p IH]; simpl; [done|].
  by rewrite bool_decide_eq_true_2.
Qed.

Lemma strip_prefix_Some (p s r : string) : strip_prefix p s = Some r → s = p +:+ r.
Proof.
  revert s. induction p as [|c p IH]; intros s; simpl; [by intros [= ->]|].
  destruct s as [|d s]; [done|]. case_bool_decide; [|done].
  intros ?%IH. by subst.
Qed.

Lemma getKey_inj (w : World S) k k' : getKey w k = getKey w k' → k = k'.
Proof.
  unfold getKey. destruct (test_mode w); [|done]. apply append_inj_l.
Qed.

(** X7.  Physical keys.  [getKey] never maps two keys to one.  In test mode
    the replacement of [/^test:/] that [flushCache] applies undoes it, for
    every key; outside test mode it leaves alone exactly the keys that do
    not start with ["test:"], and cuts the others short. *)
Theorem getKey_injective_and_stripped (w : World S) k :
  (∀ k', getKey w k = getKey w k' → k = k') ∧
  (NODE_ENV w = Some "test" → strip_test (getKey w k) = k) ∧
  (NODE_ENV w ≠ Some "test" →
     (strip_test (getKey w k) = k ↔ ∀ r, k ≠ "test:" +:+ r) ∧
     ∀ r, k = "test:" +:+ r → strip_test (getKey w k) = r).
Proof.
  unfold getKey, test_mode, strip_test. split; [|split].
  - intros k'. case_bool_decide; [|done]. apply append_inj_l.
  - intros Ht. rewrite bool_decide_eq_true_2 by done.
    by rewrite strip_prefix_append.
  - intros Ht. rewrite bool_decide_eq_false_2 by done. split.
    + split.
      * intros Hk r ->. rewrite strip_prefix_append in Hk. simpl in Hk.
        assert (String.length r = String.length ("test:" +:+ r)) as Hl by by rewrite <- Hk.
        rewrite length_append in Hl. simpl in Hl. lia.
      * intros Hno. destruct (strip_prefix "test:" k) as [r|] eqn:E; [|done].
        by apply strip_prefix_Some, Hno in E.
    + intros r ->. by rewrite strip_prefix_append.
Qed.

Lemma append_cons (a : ascii) (s t : string) :
  String a s +:+ t = String a (s +:+ t).
Proof. done. Qed.

Lemma append_nil_l (s : string) : EmptyString +:+ s = s.
Proof. done. Qed.

Lemma full_key_split (ns1 ns2 k1 k2 : string) :
  has_colon ns1 = false → has_colon ns2 = false →
  ns1 +:+ ":" +:+ k1 = ns2 +:+ ":" +:+ k2 → ns1 = ns2 ∧ k1 = k2.
Proof.
  revert ns2. induction ns1 as [|a ns1 IH]; intros [|b ns2]; simpl;
    rewrite ?append_cons, ?append_nil_l.
  - by intros _ _ [= ->].
  - intros _ [Hb _]%orb_false_elim [= <- _]. by rewrite bool_decide_eq_true_2 in Hb.
  - intros [Ha _]%orb_false_elim _ [= -> _]. by rewrite bool_decide_eq_true_2 in Ha.
  - intros [_ H1]%orb_false_elim [_ H2]%orb_false_elim [= -> E].
    destruct (IH _ H1 H2 E) as [-> ->]. done.
Qed.

(** X8.  Namespace isolation.  With the singleton connected, [isNewItem] of
    a store reads the key [namespace + ":" + key] (prefixed in test mode).
    Two stores whose namespaces hold no colon never meet on a physical key
    unless namespace and key are both the same.  With a colon in a
    namespace they can: ["a:b"] with key ["c"] and ["a"] with key ["b:c"]
    are one physical key. *)
Theorem namespace_isolation (A B : CacheStoreOptions) (w : World S) this h :
  instance w = Some this → connected_as w this h →
  (∀ k, keys_on_wire (sent_by (isNewItem A k) w)
          = [getKey w (namespace A +:+ ":" +:+ k)]) ∧
  (has_colon (namespace A) = false → has_colon (namespace B) = false →
   ∀ k1 k2, getKey w (namespace A +:+ ":" +:+ k1)
              = getKey w (namespace B +:+ ":" +:+ k2) →
            namespace A = namespace B ∧ k1 = k2) ∧
  getKey w ("a:b" +:+ ":" +:+ "c") = getKey w ("a" +:+ ":" +:+ "b:c").
Proof.
  intros Hi Hc. split; [|split].
  - intros k.
    assert (sent_by (isNewItem A k) w
            = sent_by (get this (namespace A +:+ ":" +:+ k)) w) as ->.
    { unfold sent_by, isNewItem, try_catch. unfold bind at 1.
      rewrite (cacheInstance_existing w this None Hi). unfold bind.
      by destruct (get this _ w) as [[v|e] w2]. }
    by rewrite (get_sent w this h).
  - intros HA HB k1 k2 Hk.
    apply getKey_inj in Hk. by apply full_key_split.
  - done.
Qed.
End Keys.

(** Witness of X8: two stores, the same key. *)
Lemma namespace_isolation_witness :
  keys_on_wire
    (sent_by (isNewItem {| namespace := "store1"; defaultTTL := None |} "key")
       (Sample.connected (Some "test"))) = ["test:store1:key"] ∧
  ∀ k1 k2 : string,
    getKey (Sample.connected (Some "test")) ("store1" +:+ ":" +:+ k1)
      = getKey (Sample.connected (Some "test")) ("store2" +:+ ":" +:+ k2) →
    "store1" = "store2" ∧ k1 = k2.
Proof.
  destruct (namespace_isolation {| namespace := "store1"; defaultTTL := None |}
              {| namespace := "store2"; defaultTTL := None |}
              (Sample.connected (Some "test")) 0%nat 0%nat eq_refl
              (connected_sample (Some "test"))) as (Hread & Hapart & _).
  split; [apply Hread | by apply Hapart].
Defined.

Section Flush.
Context {S : Type} `{!RedisClient S} `{!JsRuntime}.

(** The [del] calls of [flushCache]: each one goes out, in order. *)
Lemma promise_all_dels (w : World S) this h ks :
  connected_as w this h →
  let w' := snd (promise_all (map (λ key, del this key) ks) w) in
  wire w' = wire w ++ map (λ k, WSend h (CmdDel (getKey w k))) ks ∧
  heap w' = heap w ∧ NODE_ENV w' = NODE_ENV w.
Proof.
  revert w. induction ks as [|k ks IH]; intros w Hc; simpl.
  - by rewrite app_nil_r.
  - assert (∃ r w1, del this k w = (r, w1) ∧
                    wire w1 = wire w ++ [WSend h (CmdDel (getKey w k))] ∧
                    heap w1 = heap w ∧ NODE_ENV w1 = NODE_ENV w)
      as (r & w1 & Hdel & Hw & Hh & He).
    { unfold del. unfold bind at 1.
      rewrite (getConnection_connected w this h Hc). unfold_M.
      destruct (redis_del h (getKey w k) (remote w)) as [o s']. by eexists _, _. }
    rewrite Hdel.
    assert (connected_as w1 this h) as Hc1.
    { destruct Hc as (c & ? & ? & ?). exists c. by rewrite Hh. }
    destruct (IH w1 Hc1) as (Hw' & Hh' & He').
    destruct (promise_all _ w1) as [rs w2]. simpl in *.
    rewrite Hw', Hw, Hh', He', <- app_assoc. simpl.
    assert (∀ k', getKey w1 k' = getKey w k') as Hk
      by (intros; unfold getKey, test_mode; by rewrite He).
    split; [|done]. do 2 f_equal. apply map_ext. intros k'. by rewrite Hk.
Qed.

(** X9.  [flushCache] on a connected manager asks for the keys that match
    the pattern ["*"] (["test:*"] in test mode) and then sends one [DEL] for
    each key found, in order, on that key with a leading ["test:"] cut off
    and the prefix of the mode put back.  In test mode, when every key found
    starts with ["test:"], these are exactly the keys found.  Outside test
    mode a key found that starts with ["test:"] is not deleted: the [DEL]
    names what follows the ["test:"]. *)
Theorem flushCache_deletes (w : World S) this h found s1 :
  connected_as w this h →
  redis_keys h (getKey w "*") (remote w) = (Done found, s1) →
  sent_by (flushCache this) w =
    WSend h (CmdKeys (getKey w "*"))
      :: map (λ k, WSend h (CmdDel (getKey w (strip_test k)))) found ∧
  (NODE_ENV w = Some "test" →
   Forall (λ k, ∃ r, k = "test:" +:+ r) found →
   sent_by (flushCache this) w =
     WSend h (CmdKeys "test:*") :: map (λ k, WSend h (CmdDel k)) found) ∧
  (NODE_ENV w ≠ Some "test" →
   sent_by (flushCache this) w =
     WSend h (CmdKeys "*") :: map (λ k, WSend h (CmdDel (strip_test k))) found).
Proof.
  intros Hc Hkeys.
  assert (sent_by (flushCache this) w =
          WSend h (CmdKeys (getKey w "*"))
            :: map (λ k, WSend h (CmdDel (getKey w (strip_test k)))) found) as Hsent.
  { set (w1 := with_remote s1 (emit (WSend h (CmdKeys (getKey w "*"))) w)).
    assert (keys this None w = (Ok found, w1)) as Hk.
    { unfold keys. unfold bind at 1.
      rewrite (getConnection_connected w this h Hc). unfold_M. simpl.
      by rewrite Hkeys. }
    unfold sent_by, flushCache. unfold bind. rewrite Hk.
    assert (connected_as w1 this h) as Hc1 by done.
    destruct (promise_all_dels w1 this h (map strip_test found) Hc1) as (Hw & _).
    rewrite Hw. simpl. rewrite <- app_assoc, drop_app_length. simpl.
    by rewrite map_map. }
  split; [done|]. rewrite Hsent. unfold getKey, test_mode. split; intros Henv.
  - intros Hall. rewrite bool_decide_eq_true_2 by done. f_equal.
    apply map_ext_Forall. eapply Forall_impl; [exact Hall|].
    intros k [r ->]. simpl. unfold strip_test. by rewrite strip_prefix_append.
  - by rewrite bool_decide_eq_false_2.
Qed.
End Flush.

(** Witness of X9: two keys in the store of a test run. *)
Lemma flushCache_deletes_witness :
  let w := with_remote
             (Sample.put_entry "test:a" "1" None
                (Sample.put_entry "test:b" "2" None Sample.empty_store))
             (Sample.connected (Some "test")) in
  sent_by (flushCache 0%nat) w =
    [WSend 0%nat (CmdKeys "test:*"); WSend 0%nat (CmdDel "test:a");
     WSend 0%nat (CmdDel "test:b")] ∧
  Sample.entries (remote (snd (flushCache 0%nat w))) = [].
Proof.
  intros w.
  destruct (flushCache_deletes w 0%nat 0%nat ["test:a"; "test:b"] (remote w))
    as (_ & Htest & _).
  - eexists. repeat split; reflexivity.
  - vm_compute. reflexivity.
  - split; [|vm_compute; reflexivity].
    apply Htest; [done|]. repeat constructor; by eexists.
Defined.

Section Shutdown.
Context {S : Type} `{!RedisClient S} `{!JsRuntime}.

(** X10.  [shutdown()] when [quit()] resolves, or when there is no handle.
    With a handle, ready or not: [quit()] is the one thing sent; afterwards
    the manager has no handle and is not ready, so every data operation
    fails with [NotConnected].  With no handle nothing is sent and the object
    is left as it is.  In both cases the singleton is reset: [cacheInstance()]
    with no configuration fails with [NotInitialized], and with a
    configuration it makes a new object, not this one. *)
Theorem shutdown_resets (w : World S) this c :
  heap w !! this = Some c →
  match redis c with
  | Some h => ∃ s', redis_quit h (remote w) = (Done tt, s')
  | None => True
  end →
  ∃ w',
    shutdown this w = (Ok tt, w') ∧
    sent_by (shutdown this) w = from_option (λ h, [WQuit h]) [] (redis c) ∧
    (redis c = None → heap w' = heap w) ∧
    (∃ c', heap w' !! this = Some c' ∧ redis c' = None ∧
           (is_Some (redis c) → isReady c' = false) ∧ config c' = config c) ∧
    (is_Some (redis c) → ∀ k, get this k w' = (Throw NotConnected, w')) ∧
    instance w' = None ∧
    cacheInstance None w' = (Throw NotInitialized, w') ∧
    ∀ cfg, ∃ fresh w'',
      cacheInstance (Some cfg) w' = (Ok fresh, w'') ∧ fresh ≠ this ∧
      heap w'' !! fresh = Some (new_Cache cfg) ∧ heap w'' !! this = heap w' !! this.
Proof.
  intros Hc Hquit.
  assert (∃ w', shutdown this w = (Ok tt, w') ∧
            wire w' = wire w ++ from_option (λ h, [WQuit h]) [] (redis c) ∧
            instance w' = None ∧
            heap w' = match redis c with
                      | Some _ => alter (set_redis None) this
                                    (alter (set_isReady false) this (heap w))
                      | None => heap w
                      end) as (w' & Hs & Hwire & Hinst & Hheap).
  { unfold shutdown. unfold_M. rewrite Hc.
    destruct (redis c) as [h|].
    - destruct Hquit as [s' Hq]. simpl. rewrite Hq. simpl. by eexists.
    - simpl. eexists. by rewrite app_nil_r. }
  assert (length (heap w') = length (heap w)) as Hlen.
  { rewrite Hheap. destruct (redis c); by rewrite ?length_alter. }
  assert (this < length (heap w'))%nat as Hthis.
  { rewrite Hlen. by eapply lookup_lt_Some. }
  assert (∃ c', heap w' !! this = Some c' ∧ redis c' = None ∧
                (is_Some (redis c) → isReady c' = false) ∧ config c' = config c)
    as (c' & Hc' & Hr' & Hi' & Hcfg').
  { rewrite Hheap. destruct (redis c) as [h|] eqn:Hr.
    - rewrite !list_lookup_alter_eq, Hc. simpl. by eexists.
    - exists c. by repeat split. }
  exists w'. split; [done|]. split; [by eapply sent_by_emit|].
  split; [by intros Hn; rewrite Hheap, Hn|].
  split; [by exists c'|]. split; [|split; [done|split]].
  - intros Hsome k. unfold get. unfold bind at 1.
    rewrite (getConnection_disconnected w' this); [done|].
    exists c'. split; [done|]. by right.
  - unfold cacheInstance, getInstance. unfold_M. by rewrite Hinst.
  - intros cfg. unfold cacheInstance, getInstance. unfold_M. rewrite Hinst. simpl.
    eexists _, _. split; [reflexivity|]. split; [lia|]. simpl.
    split; [by rewrite lookup_app_r, Nat.sub_diag|].
    by rewrite lookup_app_l.
Qed.

(** X11.  [shutdown()] when [quit()] rejects: the exception is thrown on;
    the manager is left not ready but still holding the handle, and the
    singleton is not reset. *)
Theorem shutdown_quit_rejected (w : World S) this c h x s' :
  heap w !! this = Some c → redis c = Some h →
  redis_quit h (remote w) = (Failed x, s') →
  ∃ w',
    shutdown this w = (Throw (Foreign x), w') ∧
    heap w' !! this = Some (set_isReady false c) ∧
    instance w' = instance w ∧
    isConnected w' this = false.
Proof.
  intros Hc Hr Hq. unfold shutdown. unfold_M. rewrite Hc, Hr. simpl.
  rewrite Hq. simpl. eexists. split; [reflexivity|]. simpl.
  unfold isConnected. simpl. rewrite list_lookup_alter_eq, Hc. done.
Qed.

(** X12.  The retry policy handed to the client: every call logs a warning;
    from the fifth attempt on the answer is to stop; before that it is a
    delay of [2 ^ attempt] milliseconds plus the jitter, cut off at 3000, so
    between 1 and 3000 milliseconds when the jitter is not negative. *)
Theorem retryStrategy_bounds (w : World S) jitter attempt :
  0 ≤ jitter →
  snd (retryStrategy jitter attempt w) = logged LWarn "cache.retrying" w ∧
  (fst (retryStrategy jitter attempt w) = Ok None ↔ (5 ≤ attempt)%nat) ∧
  ((attempt < 5)%nat →
     ∃ delay, fst (retryStrategy jitter attempt w) = Ok (Some delay) ∧
              delay = Z.min (2 ^ Z.of_nat attempt + jitter) 3000 ∧
              1 ≤ delay ≤ 3000).
Proof.
  intros Hj. unfold retryStrategy. unfold_M.
  destruct (Nat.leb_spec 5 attempt) as [Hge|Hlt]; simpl.
  - split; [done|]. split; [done|]. lia.
  - split; [done|]. split; [split; [done|lia]|].
    intros _. eexists. split; [done|]. split; [done|].
    assert (0 < 2 ^ Z.of_nat attempt) by (apply Z.pow_pos_nonneg; lia). lia.
Qed.
End Shutdown.

(** Witness of X10: the manager of the examples, connected. *)
Lemma shutdown_resets_witness :
  ∃ w', shutdown 0%nat (Sample.connected None) = (Ok tt, w') ∧
        sent_by (shutdown 0%nat) (Sample.connected None) = [WQuit 0%nat] ∧
        get 0%nat "k" w' = (Throw NotConnected, w') ∧
        cacheInstance None w' = (Throw NotInitialized, w').
Proof.
  destruct (shutdown_resets (Sample.connected None) 0%nat _ eq_refl)
    as (w' & Hs & Hsent & _ & _ & Hget & _ & Hinit & _).
  - by exists Sample.empty_store.
  - exists w'. split; [done|]. split; [done|]. split; [|done].
    apply Hget. by eexists.
Defined.

(** Witness of X12: the third attempt with a jitter of 100 milliseconds. *)
Lemma retryStrategy_bounds_witness :
  fst (retryStrategy 100 3 (Sample.boot None)) = Ok (Some 108) ∧
  fst (retryStrategy 100 6 (Sample.boot None)) = Ok None.
Proof.
  destruct (retryStrategy_bounds (Sample.boot None) 100 3) as (_ & _ & Hthree); [lia|].
  destruct (retryStrategy_bounds (Sample.boot None) 100 6) as (_ & Hsix & _); [lia|].
  split.
  - destruct Hthree as (delay & Hd & -> & _); [lia|]. exact Hd.
  - apply Hsix. lia.
Defined.

(** Witness of X11: [quit()] rejects because the connection is closed. *)
Lemma shutdown_quit_rejected_witness :
  ∃ w', @shutdown _ refusing_quit 0%nat (Sample.connected None)
          = (Throw (Foreign Sample.closed), w') ∧
        instance w' = Some 0%nat ∧
        (heap w' !! 0%nat) ≫= redis = Some 0%nat.
Proof.
  destruct (@shutdown_quit_rejected _ refusing_quit (Sample.connected None)
              0%nat _ 0%nat Sample.closed Sample.empty_store eq_refl eq_refl eq_refl)
    as (w' & Hs & Hheap & Hinst & _).
  exists w'. split; [done|]. split; [done|]. by rewrite Hheap.
Defined.

Section EventLoop.
Context {S : Type} `{!RedisClient S} `{!JsRuntime}.

(** What a step leaves alone. *)

Lemma iter_steady_frame (cl : Client) ev n (w : World S) :
  let w' := Nat.iter n (steady_listener cl ev) w in
  calls w' = calls w ∧ wire w' = wire w ∧ promises w' = promises w ∧
  clients w' = clients w ∧ remote w' = remote w ∧ instance w' = instance w.
Proof.
  induction n as [|n IH]; [done|]. simpl.
  destruct IH as (<- & <- & <- & <- & <- & <-). by destruct ev.
Qed.

Lemma microtasks_promises (w : World S) : promises (microtasks w) = promises w.
Proof.
  unfold microtasks. simpl.
  by destruct (finally_frame w (calls w) w) as (_ & _ & -> & _).
Qed.

(** X14.  [connect()] on a connected manager does nothing: however many
    times it is called, each call resolves at once; no client is made,
    nothing is sent and no field of any object changes. *)
Theorem connect_when_ready (w : World S) this n :
  isConnected w this = true →
  let w' := run (replicate n (CallConnect this)) w in
  calls w' = calls w ++ replicate n (Settled (Ok tt)) ∧
  heap w' = heap w ∧ clients w' = clients w ∧ promises w' = promises w ∧
  wire w' = wire w ∧ attempts w' = attempts w ∧ isConnected w' this = true.
Proof.
  intros Hc. cbv zeta.
  assert (∀ w0 : World S, isConnected w0 this = true →
            connect this w0 = returns (Settled (Ok tt)) w0) as Hone.
  { intros w0. unfold isConnected, connect.
    destruct (heap w0 !! this) as [c|]; [|done]. by intros ->. }
  revert w Hc. induction n as [|n IH]; intros w Hc.
  - simpl. by rewrite app_nil_r.
  - change (run (replicate (Datatypes.S n) (CallConnect this)) w)
      with (run (replicate n (CallConnect this)) (connect this w)).
    rewrite (Hone w Hc).
    destruct (IH (returns (Settled (Ok tt)) w) Hc)
      as (Hcalls & Hheap & Hclients & Hpromises & Hw & Ha & Hi).
    rewrite Hcalls, Hheap, Hclients, Hpromises, Hw, Ha, Hi.
    simpl. by rewrite <- app_assoc.
Qed.
End EventLoop.

Section Lifecycle.
Context {S : Type} `{!RedisClient S} `{!JsRuntime}.

(** The world after the call that starts an attempt, when the constructor
    of the client does not throw. *)
Lemma connect_new_client (w : World S) this c :
  heap w !! this = Some c → isReady c = false → connectPromise c = None →
  redis_new (getRedisConfig w c) = None →
  let p := length (promises w) in
  let h := length (clients w) in
  let w1 := connect this w in
  calls w1 = calls w ++ [Awaiting this p] ∧
  clients w1 = clients w ++ [new_Client (getRedisConfig w c) this p] ∧
  promises w1 = promises w ++ [Pending] ∧
  wire w1 = wire w ++ [WNew (getRedisConfig w c)] ∧
  heap w1 = alter (set_connectPromise (Some p)) this
              (alter (set_redis (Some h)) this (heap w)) ∧
  heap w1 !! this = Some (set_connectPromise (Some p) (set_redis (Some h) c)) ∧
  NODE_ENV w1 = NODE_ENV w.
Proof.
  intros Hc Hr Hp Hnew p h w1. unfold w1.
  rewrite (connect_starts w this c) by done. unfold executor. rewrite Hnew.
  simpl. repeat split; try done. by rewrite !list_lookup_alter_eq, Hc.
Qed.

Lemma microtasks_clients (w : World S) : clients (microtasks w) = clients w.
Proof.
  unfold microtasks. simpl.
  by destruct (finally_frame w (calls w) w) as (_ & _ & _ & -> & _).
Qed.

(** X15.  A successful attempt.  On a manager that is not ready and has no
    attempt in flight, when the client made by [connect()] emits [ready] and
    the microtask queue is drained: the call has resolved, the manager is
    connected through the new client, no attempt is recorded as in flight,
    [setupListeners] has run once on the client, and the timer is cleared,
    so that its firing later does nothing (no rejection, no
    [disconnect()]). *)
Theorem connect_then_ready (w : World S) this c :
  heap w !! this = Some c → isReady c = false → connectPromise c = None →
  redis_new (getRedisConfig w c) = None →
  let h := length (clients w) in
  let w' := run [CallConnect this; Emit h EvReady; Microtasks] w in
  calls_since w w' = [Settled (Ok tt)] ∧
  getConnection this w' = (Ok h, w') ∧ isConnected w' this = true ∧
  (∃ c', heap w' !! this = Some c' ∧ connectPromise c' = None) ∧
  (∃ cl, clients w' !! h = Some cl ∧ cl_steady cl = 1%nat ∧
         cl_timer cl = Cleared ∧ cl_owner cl = this) ∧
  attempts w' = Datatypes.S (attempts w) ∧
  timeout h w' = w'.
Proof.
  intros Hc Hr Hp Hnew h w'.
  destruct (connect_new_client w this c Hc Hr Hp Hnew)
    as (Hcalls1 & Hclients1 & Hpromises1 & Hwire1 & Hheap1 & Hthis1 & _).
  set (p := length (promises w)) in *. set (w1 := connect this w) in *.
  assert (clients w1 !! h = Some (new_Client (getRedisConfig w c) this p)) as Hcl.
  { rewrite Hclients1. unfold h. by rewrite lookup_app_r, Nat.sub_diag. }
  set (w2 := fire h EvReady w1).
  assert (w2 = resolve p (setupListeners h
                 (update this (set_isReady true) (clearTimeout h w1)))) as Hw2.
  { unfold w2. by rewrite (fire_ready_fresh w1 h _ _ h Hcl eq_refl Hthis1 eq_refl). }
  assert (settled w2 p = Some (Ok tt)) as Hsettled.
  { rewrite Hw2. unfold settled. simpl. rewrite list_lookup_alter_eq, Hpromises1.
    unfold p. by rewrite lookup_app_r, Nat.sub_diag. }
  assert (heap w2 !! this
          = Some (set_isReady true (set_connectPromise (Some p)
                                      (set_redis (Some h) c)))) as Hthis2.
  { rewrite Hw2. simpl. by rewrite list_lookup_alter_eq, Hthis1. }
  assert (clients w2 !! h
          = Some {| cl_options := getRedisConfig w c; cl_owner := this;
                    cl_attempt := p; cl_timer := Cleared; cl_steady := 1 |}) as Hcl2.
  { rewrite Hw2. simpl. by rewrite !list_lookup_alter_eq, Hcl. }
  assert (calls w2 = calls w ++ [Awaiting this p]) as Hcalls2.
  { rewrite Hw2. simpl. exact Hcalls1. }
  change w' with (microtasks w2).
  destruct (finally_clears w2 (calls w2) w2 this p _ Hthis2)
    as (c3 & Hc3 & Hr3 & Hi3 & Hp3).
  { rewrite Hcalls2. apply elem_of_app. right. by left. }
  { by eexists. }
  rewrite <- microtasks_heap in Hc3.
  split; [|split; [|split; [|split; [|split; [|split]]]]].
  - erewrite calls_since_drain by exact Hcalls2. simpl. by rewrite Hsettled.
  - unfold getConnection. unfold_M. rewrite Hc3. simpl in *. by rewrite Hi3, Hr3.
  - unfold isConnected. rewrite Hc3. simpl in *. by rewrite Hi3, Hr3.
  - by exists c3.
  - rewrite microtasks_clients. by eexists.
  - unfold attempts. rewrite microtasks_wire, Hw2. simpl. rewrite Hwire1.
    rewrite List.filter_app, length_app. simpl. lia.
  - unfold timeout. by rewrite microtasks_clients, Hcl2.
Qed.

Lemma executor_frame (w : World S) this c p :
  wire (executor this c p w) = wire w ++ [WNew (getRedisConfig w c)] ∧
  calls (executor this c p w) = calls w.
Proof. unfold executor. by destruct (redis_new _). Qed.

(** X16.  A failed attempt does not stand in the way of the next.  After the
    attempt of a [connect()] has failed, by the [error] event of its client
    or by the timer, and the queue is drained, the manager is not connected
    and a new call of [connect()] starts a second attempt: it runs
    [new Redis(...)] again and waits on a new promise. *)
Theorem retry_after_failure (w : World S) this c ev r :
  heap w !! this = Some c → isReady c = false → connectPromise c = None →
  redis_new (getRedisConfig w c) = None →
  settles (length (clients w)) ev r → r ≠ Ok tt →
  let failed := run [CallConnect this; ev; Microtasks] w in
  calls_since w failed = [Settled r] ∧
  isConnected failed this = false ∧
  length (promises failed) = Datatypes.S (length (promises w)) ∧
  attempts failed = Datatypes.S (attempts w) ∧
  calls_since failed (connect this failed)
    = [Awaiting this (Datatypes.S (length (promises w)))] ∧
  attempts (connect this failed) = Datatypes.S (Datatypes.S (attempts w)).
Proof.
  intros Hc Hr Hp Hnew Hev Hfail failed.
  destruct (connect_new_client w this c Hc Hr Hp Hnew)
    as (Hcalls1 & Hclients1 & Hpromises1 & Hwire1 & Hheap1 & Hthis1 & _).
  set (h := length (clients w)) in *. set (p := length (promises w)) in *.
  set (w1 := connect this w) in *.
  assert (clients w1 !! h = Some (new_Client (getRedisConfig w c) this p)) as Hcl.
  { rewrite Hclients1. unfold h. by rewrite lookup_app_r, Nat.sub_diag. }
  assert (promises w1 !! p = Some Pending) as Hp1.
  { rewrite Hpromises1. unfold p. by rewrite lookup_app_r, Nat.sub_diag. }
  set (w2 := step w1 ev).
  assert (calls w2 = calls w1 ∧ settled w2 p = Some r ∧
          length (promises w2) = length (promises w1) ∧
          attempts w2 = attempts w1 ∧
          ∃ c2, heap w2 !! this = Some c2 ∧ isReady c2 = false)
    as (Hcalls2 & Hsettled2 & Hlen2 & Hatt2 & c2 & Hc2 & Hi2).
  { unfold w2. destruct Hev as [|x|]; [done| |]; simpl.
    - rewrite (fire_error_fresh w1 h _ x Hcl eq_refl). unfold settled. simpl.
      rewrite !list_lookup_alter_eq, Hp1, Hthis1, length_alter.
      repeat split; try done. by eexists.
    - rewrite (timeout_armed w1 h _ Hcl eq_refl). simpl. rewrite Hthis1. simpl.
      unfold settled, attempts. simpl.
      rewrite !list_lookup_alter_eq, Hp1, Hthis1, length_alter.
      rewrite List.filter_app. simpl. rewrite app_nil_r.
      repeat split; try done. by eexists. }
  change failed with (microtasks w2).
  destruct (finally_clears w2 (calls w2) w2 this p _ Hc2)
    as (c3 & Hc3 & Hr3 & Hi3 & Hp3).
  { rewrite Hcalls2, Hcalls1. apply elem_of_app. right. by left. }
  { by eexists. }
  rewrite <- microtasks_heap in Hc3.
  assert (isReady c3 = false) as Hready3 by congruence.
  assert (attempts (microtasks w2) = Datatypes.S (attempts w)) as Hatt3.
  { unfold attempts in *. rewrite microtasks_wire, Hatt2, Hwire1.
    rewrite List.filter_app, length_app. simpl. lia. }
  assert (length (promises (microtasks w2)) = Datatypes.S p) as Hlen3.
  { rewrite microtasks_promises, Hlen2, Hpromises1, length_app. simpl. lia. }
  split; [|split; [|split; [|split; [|split]]]].
  - erewrite calls_since_drain by (rewrite Hcalls2; exact Hcalls1).
    simpl. by rewrite Hsettled2.
  - unfold isConnected. by rewrite Hc3, Hready3.
  - done.
  - done.
  - destruct (executor_frame (microtasks w2) this c3
                (length (promises (microtasks w2)))) as (_ & Hcx).
    apply (calls_since_app _ _ (calls (microtasks w2))); [|done].
    rewrite (connect_starts (microtasks w2) this c3) by done.
    unfold returns, update, with_calls, with_heap. cbn [calls].
    by rewrite Hcx, Hlen3.
  - destruct (executor_frame (microtasks w2) this c3
                (length (promises (microtasks w2)))) as (Hwx & _).
    rewrite (connect_starts (microtasks w2) this c3) by done.
    unfold attempts, returns, update, with_calls, with_heap in *. cbn [wire].
    rewrite Hwx, List.filter_app, length_app, Hatt3. simpl. lia.
Qed.
End Lifecycle.

Section Reconnect.
Context {S : Type} `{!RedisClient S} `{!JsRuntime}.

Lemma iter_close (cl : Client) n (w : World S) c :
  heap w !! cl_owner cl = Some c →
  let w' := Nat.iter n (steady_listener cl EvClose) w in
  log w' = log w ++ replicate n (LInfo, "cache.closed") ∧
  heap w' !! cl_owner cl
    = Some (match n with O => c | _ => set_isReady false c end).
Proof.
  intros Hc. induction n as [|n [IHlog IHheap]]; simpl.
  - by rewrite app_nil_r.
  - rewrite IHlog, list_lookup_alter_eq, IHheap, <- app_assoc.
    split; [by rewrite <- replicate_S_end|]. by destruct n.
Qed.

Lemma iter_ready (cl : Client) n (w : World S) :
  let w' := Nat.iter n (steady_listener cl EvReady) w in
  log w' = log w ++ replicate n (LInfo, "cache.ready") ∧ heap w' = heap w.
Proof.
  induction n as [|n [IHlog IHheap]]; simpl.
  - by rewrite app_nil_r.
  - rewrite IHlog, IHheap, <- app_assoc. by rewrite <- replicate_S_end.
Qed.

(** X17.  Losing and regaining the connection.  On a connected manager whose
    client has the listeners of [setupListeners], the [close] event of the
    client clears the readiness flag, so that data operations fail with
    [NotConnected]; a later [ready] event of the same client sets the flag
    again with no call of [connect()] and no new client.  That [ready] runs
    [setupListeners] once more on the client: the client then has one more
    set of listeners than before, and each [close] or [ready] is logged once
    per set. *)
Theorem close_then_ready_again (w : World S) this c h cl :
  heap w !! this = Some c → isReady c = true → redis c = Some h →
  clients w !! h = Some cl → cl_owner cl = this → (1 ≤ cl_steady cl)%nat →
  let closed := fire h EvClose w in
  let back := fire h EvReady closed in
  isConnected closed this = false ∧
  (∀ k, get this k closed = (Throw NotConnected, closed)) ∧
  log closed = log w ++ replicate (cl_steady cl) (LInfo, "cache.closed") ∧
  isConnected back this = true ∧
  getConnection this back = (Ok h, back) ∧
  attempts back = attempts w ∧ calls back = calls w ∧
  (∃ cl', clients back !! h = Some cl' ∧
          cl_steady cl' = Datatypes.S (cl_steady cl)) ∧
  log back = log closed ++ replicate (cl_steady cl) (LInfo, "cache.ready").
Proof.
  intros Hc Hready Hredis Hcl Howner Hsteady closed back.
  subst this.
  assert (closed = Nat.iter (cl_steady cl) (steady_listener cl EvClose) w) as Hclosed.
  { unfold closed, fire. by rewrite Hcl. }
  destruct (iter_close cl (cl_steady cl) w c Hc) as (Hlog1 & Hheap1).
  destruct (iter_steady_frame cl EvClose (cl_steady cl) w)
    as (Hcalls1 & Hwire1 & Hprom1 & Hclients1 & _).
  rewrite <- Hclosed in *.
  assert (heap closed !! cl_owner cl = Some (set_isReady false c)) as Hc1.
  { rewrite Hheap1. destruct (cl_steady cl); [lia|done]. }
  set (w2 := resolve (cl_attempt cl)
               (setupListeners h
                  (update (cl_owner cl) (set_isReady true) (clearTimeout h closed)))).
  assert (back = Nat.iter (cl_steady cl) (steady_listener cl EvReady) w2) as Hback.
  { unfold back, fire. rewrite Hclients1, Hcl.
    unfold attempt_listener. unfold_M. simpl.
    by rewrite list_lookup_alter_eq, Hc1; simpl; rewrite Hredis. }
  destruct (iter_ready cl (cl_steady cl) w2) as (Hlog2 & Hheap2).
  destruct (iter_steady_frame cl EvReady (cl_steady cl) w2)
    as (Hcalls2 & Hwire2 & _ & Hclients2 & _).
  rewrite <- Hback in *.
  assert (heap back !! cl_owner cl = Some (set_isReady true (set_isReady false c)))
    as Hc2.
  { rewrite Hheap2. unfold w2. simpl. by rewrite list_lookup_alter_eq, Hc1. }
  split; [|split; [|split; [|split; [|split; [|split; [|split; [|split]]]]]]].
  - unfold isConnected. by rewrite Hc1.
  - intros k. unfold get. unfold bind at 1.
    rewrite (getConnection_disconnected closed (cl_owner cl)); [done|].
    eexists. split; [exact Hc1|]. by left.
  - done.
  - unfold isConnected. rewrite Hc2. simpl. by rewrite Hredis.
  - unfold getConnection. unfold_M. rewrite Hc2. simpl. by rewrite Hredis.
  - unfold attempts. rewrite Hwire2.
    assert (wire w2 = wire closed) as -> by done. by rewrite Hwire1.
  - rewrite Hcalls2.
    assert (calls w2 = calls closed) as -> by done. by rewrite Hcalls1.
  - rewrite Hclients2. unfold w2. simpl.
    rewrite !list_lookup_alter_eq, Hclients1, Hcl. simpl.
    eexists. split; [reflexivity|]. by destruct (cl_timer cl).
  - by rewrite Hlog2.
Qed.
End Reconnect.

Section OneAttempt.
Context {S : Type} `{!RedisClient S} `{!JsRuntime}.

Lemma quiet_refl (w : World S) : quiet w w.
Proof. split; eauto. Qed.

Lemma quiet_trans (w1 w2 w3 : World S) : quiet w1 w2 → quiet w2 w3 → quiet w1 w3.
Proof.
  intros [Hc1 Hl1 Hp1 Hcl1 Hh1] [Hc2 Hl2 Hp2 Hcl2 Hh2]. split.
  - congruence.
  - congruence.
  - eauto.
  - intros h cl3 H3. destruct (Hcl2 _ _ H3) as (cl2 & H2 & ? & ?).
    destruct (Hcl1 _ _ H2) as (cl1 & ? & ? & ?). exists cl1.
    split; [done|]. split; congruence.
  - intros this c H1. destruct (Hh1 _ _ H1) as (c2 & H2 & ?).
    destruct (Hh2 _ _ H2) as (c3 & ? & ?). exists c3. split; [done|]. congruence.
Qed.

Lemma quiet_clients_alter (w : World S) (f : Client → Client) h :
  (∀ cl, cl_owner (f cl) = cl_owner cl ∧ cl_attempt (f cl) = cl_attempt cl) →
  quiet w (with_clients (alter f h) w).
Proof.
  intros Hf. split; simpl; eauto.
  intros h' cl'. rewrite list_lookup_alter. case_decide; [|by eauto].
  subst. destruct (clients w !! h') as [cl|]; [|done]. simpl. intros [= <-].
  exists cl. by destruct (Hf cl).
Qed.

Lemma quiet_update (w : World S) this (f : Cache → Cache) :
  (∀ c, connectPromise (f c) = connectPromise c) → quiet w (update this f w).
Proof.
  intros Hf. split; simpl; eauto.
  intros t c Ht. rewrite list_lookup_alter. case_decide; [|by eauto].
  subst. rewrite Ht. simpl. by eauto.
Qed.

Lemma quiet_settle (w : World S) (f : Settlement → Settlement) p :
  (∀ s, f s = Pending → s = Pending) →
  quiet w (with_promises (alter f p) w).
Proof.
  intros Hf. split; simpl; eauto.
  - by rewrite length_alter.
  - intros q. rewrite list_lookup_alter. case_decide; [|done].
    subst. destruct (promises w !! q) as [s|]; [|done]. simpl.
    intros [= E]. by rewrite (Hf _ E).
Qed.

Lemma quiet_clearTimeout (w : World S) h : quiet w (clearTimeout h w).
Proof. apply quiet_clients_alter. intros cl. by destruct (cl_timer cl). Qed.

Lemma quiet_setupListeners (w : World S) h : quiet w (setupListeners h w).
Proof. by apply quiet_clients_alter. Qed.

Lemma quiet_resolve (w : World S) p : quiet w (resolve p w).
Proof. apply quiet_settle. by intros []. Qed.

Lemma quiet_reject (w : World S) p e : quiet w (reject p e w).
Proof. apply quiet_settle. by intros []. Qed.

Lemma quiet_aside (w w' : World S) :
  calls w' = calls w → promises w' = promises w → clients w' = clients w →
  heap w' = heap w → quiet w w'.
Proof. intros Hc Hp Hcl Hh. split; rewrite ?Hc, ?Hp, ?Hcl, ?Hh; eauto. Qed.

Lemma quiet_steady (cl : Client) ev (w : World S) :
  quiet w (steady_listener cl ev w).
Proof.
  destruct ev; try by apply quiet_aside.
  apply (quiet_trans _ (logged LInfo "cache.closed" w)); [by apply quiet_aside|].
  by apply (quiet_update _ _ (set_isReady false)).
Qed.

Lemma quiet_iter_steady (cl : Client) ev n (w : World S) :
  quiet w (Nat.iter n (steady_listener cl ev) w).
Proof.
  induction n as [|n IH]; [apply quiet_refl|].
  simpl. eapply quiet_trans; [exact IH|apply quiet_steady].
Qed.

Lemma quiet_flag (w : World S) h this b :
  quiet w (update this (set_isReady b) (clearTimeout h w)).
Proof.
  apply (quiet_trans _ (clearTimeout h w)); [apply quiet_clearTimeout|].
  by apply (quiet_update _ _ (set_isReady b)).
Qed.

Lemma quiet_attempt_listener (w : World S) h cl ev r w' :
  attempt_listener h cl ev w = (r, w') → quiet w w'.
Proof.
  unfold attempt_listener. unfold_M.
  destruct ev as [| |x| | |]; try by intros [= <- <-]; apply quiet_refl.
  - simpl. rewrite list_lookup_alter.
    pose proof (quiet_flag w h (cl_owner cl) true) as Hq.
    case_decide; [|done].
    destruct (heap w !! cl_owner cl) as [c|] eqn:Hc; simpl; [|by intros [= <- <-]].
    destruct (redis c) as [r0|]; intros [= <- <-]; [|done].
    apply (quiet_trans _ _ _ Hq).
    apply (quiet_trans _ (setupListeners r0
             (update (cl_owner cl) (set_isReady true) (clearTimeout h w))));
      [apply quiet_setupListeners|apply quiet_resolve].
  - intros [= <- <-].
    apply (quiet_trans _ _ _ (quiet_flag w h (cl_owner cl) false)).
    apply quiet_reject.
Qed.

Lemma quiet_fire (w : World S) h ev : quiet w (fire h ev w).
Proof.
  unfold fire. destruct (clients w !! h) as [cl|]; [|apply quiet_refl].
  destruct (attempt_listener h cl ev w) as [[[]|e] w1] eqn:E;
    apply quiet_attempt_listener in E.
  - apply (quiet_trans _ _ _ E), quiet_iter_steady.
  - apply (quiet_trans _ _ _ E). by apply quiet_aside.
Qed.

Lemma quiet_timeout (w : World S) h : quiet w (timeout h w).
Proof.
  unfold timeout. destruct (clients w !! h) as [cl|]; [|apply quiet_refl].
  destruct (cl_timer cl); try apply quiet_refl.
  assert (quiet w (reject (cl_attempt cl) ConnectionTimeout
                     (with_clients (alter (set_timer Fired) h) w))) as Hq.
  { apply (quiet_trans _ (with_clients (alter (set_timer Fired) h) w));
      [by apply quiet_clients_alter|apply quiet_reject]. }
  simpl. destruct (heap w !! cl_owner cl ≫= redis); [|done].
  apply (quiet_trans _ _ _ Hq). by apply quiet_aside.
Qed.

Lemma coherent_quiet (w w' : World S) : coherent w → quiet w w' → coherent w'.
Proof.
  intros [H1 H2 H3 H4] [Qc Ql Qp Qcl Qh]. split.
  - intros h cl' Hcl'. destruct (Qcl _ _ Hcl') as (cl & Hcl & _ & <-).
    rewrite Ql. by eapply H1.
  - intros h1 h2 cl1' cl2' Ha Hb E.
    destruct (Qcl _ _ Ha) as (cl1 & ? & _ & ?).
    destruct (Qcl _ _ Hb) as (cl2 & ? & _ & ?).
    eapply H2; [done..|congruence].
  - intros h cl' Hcl' Hpend. destruct (Qcl _ _ Hcl') as (cl & Hcl & Ho & Ha).
    apply Qp in Hpend. rewrite <- Ha in Hpend.
    destruct (H3 _ _ Hcl Hpend) as (c & Hc & Hm).
    rewrite Ho in Hc. destruct (Qh _ _ Hc) as (c' & ? & ?).
    exists c'. split; [done|]. congruence.
  - intros this p. rewrite Qc. intros Hin.
    destruct (H4 _ _ Hin) as (c & Hc & Hm).
    destruct (Qh _ _ Hc) as (c' & ? & ?). exists c'. split; [done|]. congruence.
Qed.

(** A call that does not wait for a [finally] changes nothing here. *)
Lemma coherent_returns (w : World S) call :
  (∀ this p, call ≠ Awaiting this p) → coherent w → coherent (returns call w).
Proof.
  intros Hcall [H1 H2 H3 H4]. split; simpl; try done.
  intros this p [Hin|Hin%list_elem_of_singleton]%elem_of_app; [by eauto|].
  by destruct (Hcall this p).
Qed.

(** The call that starts an attempt. *)
Lemma coherent_connect_starts (w : World S) this c :
  heap w !! this = Some c → connectPromise c = None → coherent w →
  coherent (returns (Awaiting this (length (promises w)))
              (update this (set_connectPromise (Some (length (promises w))))
                 (executor this c (length (promises w)) w))).
Proof.
  intros Hc Hp [H1 H2 H3 H4]. set (p := length (promises w)).
  assert (∀ q, ¬ Awaiting this q ∈ calls w) as Hnowait.
  { intros q Hin. destruct (H4 _ _ Hin) as (c0 & Hc0 & Hm). congruence. }
  assert (∀ h cl, clients w !! h = Some cl →
            promises w !! cl_attempt cl = Some Pending → cl_owner cl ≠ this)
    as Hnopending.
  { intros h cl Hcl Hpend E. destruct (H3 _ _ Hcl Hpend) as (c0 & Hc0 & Hm).
    rewrite E in Hc0. congruence. }
  assert (∀ t (f : Cache → Cache) hp, t ≠ this →
            alter f this hp !! t = hp !! t) as Hne
    by (intros; by apply list_lookup_alter_ne).
  unfold executor. destruct (redis_new (getRedisConfig w c)) as [x|]; split; simpl.
  - intros h cl Hcl. rewrite length_app. simpl. specialize (H1 _ _ Hcl). lia.
  - done.
  - intros h cl Hcl Hpend.
    assert (promises w !! cl_attempt cl = Some Pending) as Hpend'.
    { specialize (H1 _ _ Hcl). by rewrite lookup_app_l in Hpend. }
    rewrite Hne by by eapply Hnopending. by eapply H3.
  - intros t q [Hin|Hin%list_elem_of_singleton]%elem_of_app.
    + rewrite Hne by (intros ->; by eapply Hnowait). by eapply H4.
    + injection Hin as -> ->. rewrite list_lookup_alter_eq, Hc. simpl. by eexists.
  - intros h cl. rewrite length_app. simpl.
    intros [Hcl|[-> <-]]%lookup_snoc_Some; simpl; [|fold p; lia].
    destruct Hcl as [_ Hcl]. specialize (H1 _ _ Hcl). lia.
  - intros h1 h2 cl1 cl2.
    intros [[_ Ha]|[-> <-]]%lookup_snoc_Some [[_ Hb]|[-> <-]]%lookup_snoc_Some;
      simpl; try done.
    + by eapply H2.
    + intros E. specialize (H1 _ _ Ha). fold p in E. lia.
    + intros E. specialize (H1 _ _ Hb). fold p in E. lia.
  - intros h cl [[_ Hcl]|[-> <-]]%lookup_snoc_Some; simpl.
    + intros Hpend.
      assert (promises w !! cl_attempt cl = Some Pending) as Hpend'.
      { specialize (H1 _ _ Hcl). by rewrite lookup_app_l in Hpend. }
      rewrite !Hne by by eapply Hnopending. by eapply H3.
    + intros _. rewrite !list_lookup_alter_eq, Hc. simpl. by eexists.
  - intros t q [Hin|Hin%list_elem_of_singleton]%elem_of_app.
    + rewrite !Hne by (intros ->; by eapply Hnowait). by eapply H4.
    + injection Hin as -> ->. rewrite !list_lookup_alter_eq, Hc. simpl. by eexists.
Qed.

Lemma coherent_connect (w : World S) this : coherent w → coherent (connect this w).
Proof.
  intros Hw. unfold connect.
  destruct (heap w !! this) as [c|] eqn:Hc; [|by apply coherent_returns].
  destruct (isReady c && truthy (redis c)); [by apply coherent_returns|].
  destruct (connectPromise c) as [p|] eqn:Hp; [by apply coherent_returns|].
  by apply coherent_connect_starts.
Qed.

(** A drain leaves alone the recorded promise of a manager none of whose
    waiting calls is due. *)
Lemma finally_keeps (w0 : World S) cs acc this :
  (∀ p, Awaiting this p ∈ cs → settled w0 p = None) →
  heap (foldl (λ acc c, finally w0 c acc) acc cs) !! this = heap acc !! this.
Proof.
  revert acc. induction cs as [|call cs IH]; intros acc Hcs; [done|].
  simpl. rewrite IH by (intros p Hin; apply Hcs; by right).
  unfold finally. destruct call as [r|q|t q]; try done.
  destruct (truthy (settled w0 q)) eqn:Hq; [|done].
  simpl. apply list_lookup_alter_ne. intros ->.
  rewrite (Hcs q) in Hq; [done|by left].
Qed.

Lemma resume_waiting_inv (w : World S) call this p :
  resume w call = Awaiting this p → call = Awaiting this p ∧ settled w p = None.
Proof.
  destruct call as [r|q|t q]; simpl; [done| |].
  - by destruct (settled w q).
  - destruct (settled w q) eqn:E; [done|]. intros [= ? ?]. by subst.
Qed.

Lemma coherent_microtasks (w : World S) : coherent w → coherent (microtasks w).
Proof.
  intros [H1 H2 H3 H4].
  assert (∀ this c p, heap w !! this = Some c → connectPromise c = Some p →
            settled w p = None → heap (microtasks w) !! this = Some c) as Hkept.
  { intros this c p Hc Hm Hp. rewrite microtasks_heap, finally_keeps; [done|].
    intros q Hin. destruct (H4 _ _ Hin) as (c0 & Hc0 & Hm0).
    assert (q = p) as -> by congruence. done. }
  split; rewrite ?microtasks_clients, ?microtasks_promises; try done.
  - intros h cl Hcl Hpend. destruct (H3 _ _ Hcl Hpend) as (c & Hc & Hm).
    exists c. split; [|done]. apply (Hkept _ _ _ Hc Hm).
    unfold settled. by rewrite Hpend.
  - intros this p. rewrite microtasks_calls.
    intros (call & Hres & Hin)%list_elem_of_fmap.
    symmetry in Hres. apply resume_waiting_inv in Hres as [-> Hp].
    destruct (H4 _ _ Hin) as (c & Hc & Hm). exists c. split; [|done].
    by apply (Hkept _ _ _ Hc Hm).
Qed.

Lemma coherent_step (w : World S) st : coherent w → coherent (step w st).
Proof.
  intros Hw. destruct st as [this|h ev|h|]; unfold step.
  - by apply coherent_connect.
  - eapply coherent_quiet; [done|apply quiet_fire].
  - eapply coherent_quiet; [done|apply quiet_timeout].
  - by apply coherent_microtasks.
Qed.

Lemma coherent_run (w : World S) sts : coherent w → coherent (run sts w).
Proof.
  revert w. induction sts as [|st sts IH]; intros w Hw; [done|].
  change (run (st :: sts) w) with (run sts (step w st)).
  by apply IH, coherent_step.
Qed.

Lemma coherent_before_connect (w : World S) :
  clients w = [] → calls w = [] → coherent w.
Proof.
  intros Hcl Hc. split; rewrite ?Hcl, ?Hc; try done.
  intros this p Hin. by apply elem_of_nil in Hin.
Qed.

(** In a state that the code reaches, a manager with no attempt in flight
    has no call waiting for its [finally]. *)
Lemma idle_no_waiting (w : World S) this c :
  coherent w → heap w !! this = Some c → connectPromise c = None →
  ∀ q, Awaiting this q ∉ calls w.
Proof.
  intros [_ _ _ Hwaiting] Hc Hp q Hin.
  destruct (Hwaiting _ _ Hin) as (c' & Hc' & Hq). congruence.
Qed.

(** X18.  One attempt at a time.  Start from any world in which [connect()]
    has not been called yet, and let calls of [connect()] on any managers,
    events of any clients, firings of timers and drains of the microtask
    queue follow in any order and number.  Then no manager ever has two
    clients whose attempts are both pending: while one attempt waits for
    [ready], [error] or its timer, every [connect()] on that manager joins it
    instead of making another client. *)
Theorem one_attempt_at_a_time (w : World S) sts this h1 h2 :
  clients w = [] → calls w = [] →
  pending_on (run sts w) h1 this → pending_on (run sts w) h2 this →
  h1 = h2.
Proof.
  intros Hcl Hc (cl1 & Hcl1 & Ho1 & Hp1) (cl2 & Hcl2 & Ho2 & Hp2).
  destruct (coherent_run w sts (coherent_before_connect w Hcl Hc))
    as [_ Hapart Hrecorded _].
  destruct (Hrecorded _ _ Hcl1 Hp1) as (c1 & Hc1 & Hm1).
  destruct (Hrecorded _ _ Hcl2 Hp2) as (c2 & Hc2 & Hm2).
  rewrite Ho1 in Hc1. rewrite Ho2 in Hc2.
  eapply Hapart; [done..|congruence].
Qed.
End OneAttempt.

(** Witness of X1: the manager of the examples, connected and not. *)
Lemma isConnected_iff_gate_witness :
  isConnected (Sample.connected None) 0%nat = true ∧
  isConnected (Sample.fresh None) 0%nat = false.
Proof.
  destruct (isConnected_iff_gate (Sample.connected None) 0%nat _ eq_refl)
    as [Hyes _].
  destruct (isConnected_iff_gate (Sample.fresh None) 0%nat _ eq_refl)
    as [_ Hno].
  split.
  - apply Hyes. exists 0%nat. vm_compute; reflexivity.
  - apply Hno. vm_compute; reflexivity.
Defined.

(** Witness of X2: a pipeline of one command when the link is down. *)
Lemma executePipeline_throws_only_witness :
  log (snd (executePipeline 0%nat (ret [CmdGet "k"])
              (with_remote {| Sample.entries := []; Sample.link_up := false |}
                 (Sample.connected None))))
  = log (Sample.connected None) ++ [(LError, "cache.pipeline.execution_failed")].
Proof.
  destruct (executePipeline_throws_only
              (with_remote {| Sample.entries := []; Sample.link_up := false |}
                 (Sample.connected None))
              0%nat 0%nat (ret [CmdGet "k"]) (Foreign Sample.closed))
    as [(w' & Hop & _)|(cmds & w' & x & s' & Hop & _ & _ & Hlog)].
  - eexists. split; [reflexivity|]. split; reflexivity.
  - vm_compute; reflexivity.
  - discriminate Hop.
  - injection Hop as <- <-. exact Hlog.
Defined.

(** Witness of X3: a [null] is queued, a BigInt stops the whole call. *)
Lemma setBulk_serialises_first_witness :
  sent_by (setBulk 0%nat
             [{| item_key := "a"; item_value := Data JNull; item_ttl := None |}])
    (Sample.connected None)
  = [WExec 0%nat [CmdSet "a" (Some "null")]] ∧
  ∃ x, setBulk 0%nat
         [{| item_key := "a"; item_value := Data JNull; item_ttl := None |};
          {| item_key := "b"; item_value := Exotic "bigint"; item_ttl := None |}]
         (Sample.connected None)
       = (Throw (Foreign x), Sample.connected None).
Proof.
  split.
  - destruct (setBulk_serialises_first (Sample.connected None) 0%nat 0%nat
                [{| item_key := "a"; item_value := Data JNull; item_ttl := None |}])
      as (_ & Hsent & _).
    + eexists. split; [reflexivity|]. split; reflexivity.
    + apply Hsent. constructor; [|constructor]. by eexists.
  - destruct (setBulk_serialises_first (Sample.connected None) 0%nat 0%nat
                [{| item_key := "a"; item_value := Data JNull; item_ttl := None |};
                 {| item_key := "b"; item_value := Exotic "bigint"; item_ttl := None |}])
      as (_ & _ & Hthrows).
    + eexists. split; [reflexivity|]. split; reflexivity.
    + apply Hthrows. apply Exists_cons_tl, Exists_cons_hd. by eexists.
Defined.

(** Witness of X14: three calls on the connected manager of the examples. *)
Lemma connect_when_ready_witness :
  calls (run (replicate 3 (CallConnect 0%nat)) (Sample.connected None))
  = calls (Sample.connected None) ++ replicate 3 (Settled (Ok tt)) ∧
  attempts (run (replicate 3 (CallConnect 0%nat)) (Sample.connected None))
  = attempts (Sample.connected None).
Proof.
  destruct (connect_when_ready (Sample.connected None) 0%nat 3)
    as (Hcalls & _ & _ & _ & _ & Hattempts & _).
  - vm_compute; reflexivity.
  - by split.
Defined.

(** Witness of X15: the first connection of the manager of the examples. *)
Lemma connect_then_ready_witness :
  isConnected (Sample.connected None) 0%nat = true ∧
  timeout 0%nat (Sample.connected None) = Sample.connected None.
Proof.
  destruct (connect_then_ready (Sample.fresh None) 0%nat _ eq_refl)
    as (_ & _ & Hready & _ & _ & _ & Htimer); try reflexivity.
  by split.
Defined.

(** Witness of X16: the first attempt of the manager of the examples runs
    into its timer. *)
Lemma retry_after_failure_witness :
  calls_since (Sample.fresh None)
    (run [CallConnect 0%nat; TimerFires 0%nat; Microtasks] (Sample.fresh None))
  = [Settled (Throw ConnectionTimeout)] ∧
  attempts (connect 0%nat
              (run [CallConnect 0%nat; TimerFires 0%nat; Microtasks]
                 (Sample.fresh None))) = 2%nat.
Proof.
  destruct (retry_after_failure (Sample.fresh None) 0%nat _ (TimerFires 0%nat)
              (Throw ConnectionTimeout) eq_refl)
    as (Hcalls & _ & _ & _ & _ & Hattempts); try reflexivity.
  - constructor.
  - discriminate.
  - by split.
Defined.

(** Witness of X17: the connected manager of the examples loses its
    connection and gets it back. *)
Lemma close_then_ready_again_witness :
  isConnected (fire 0%nat EvClose (Sample.connected None)) 0%nat = false ∧
  isConnected (fire 0%nat EvReady (fire 0%nat EvClose (Sample.connected None)))
    0%nat = true ∧
  ∃ cl', clients (fire 0%nat EvReady (fire 0%nat EvClose (Sample.connected None)))
           !! 0%nat = Some cl' ∧
         cl_steady cl' = 2%nat.
Proof.
  destruct (close_then_ready_again (Sample.connected None) 0%nat _ 0%nat _
              eq_refl eq_refl eq_refl eq_refl eq_refl)
    as (Hclosed & _ & _ & Hback & _ & _ & _ & Hcl & _).
  - simpl. lia.
  - split; [done|]. split; [done|]. exact Hcl.
Defined.

(** Witness of X18: after two calls of [connect()] on the manager of the
    examples, the only client with a pending attempt is the first. *)
Lemma one_attempt_at_a_time_witness :
  pending_on (run [CallConnect 0%nat; CallConnect 0%nat] (Sample.fresh None))
    0%nat 0%nat ∧
  ∀ h, pending_on (run [CallConnect 0%nat; CallConnect 0%nat] (Sample.fresh None))
         h 0%nat → h = 0%nat.
Proof.
  assert (pending_on (run [CallConnect 0%nat; CallConnect 0%nat] (Sample.fresh None))
            0%nat 0%nat) as Hfirst.
  { eexists. split; [reflexivity|]. split; reflexivity. }
  split; [exact Hfirst|].
  intros h Hh.
  exact (one_attempt_at_a_time (Sample.fresh None)
           [CallConnect 0%nat; CallConnect 0%nat] 0%nat h 0%nat
           eq_refl eq_refl Hh Hfirst).
Defined.

(** Witness of X7: a key in test mode, and a key that starts with ["test:"]
    outside it. *)
Lemma getKey_injective_and_stripped_witness :
  strip_test (getKey (Sample.boot (Some "test")) "k") = "k" ∧
  strip_test (getKey (Sample.boot None) "test:k") = "k".
Proof.
  destruct (getKey_injective_and_stripped (Sample.boot (Some "test")) "k")
    as (_ & Htest & _).
  destruct (getKey_injective_and_stripped (Sample.boot None) "test:k")
    as (_ & _ & Hplain).
  split.
  - by apply Htest.
  - destruct Hplain as [_ Hcut]; [done|]. by apply Hcut.
Defined.

Section SingleFlightSchedules.
Context {S : Type} `{!RedisClient S} `{!JsRuntime}.








End SingleFlightSchedules.

